(** * rikaichamp popup: entry parsing, entry grouping and copy selection

    A shallow embedding of the data processing done by [src/popup.ts]:

    - the regular expression [/^(.+?)\s+(?:\[(.*?)\])?\s*\/(.+)\//] that
      both [renderWordEntries] and [renderNamesEntries] apply to every
      dictionary line, with the backtracking priorities of ECMAScript;
    - the two pre-processing loops that build the [entries] arrays;
    - [getSelectedIndex] and the places where its result is used.

    JavaScript strings are sequences of UTF-16 code units, and a regular
    expression without the [u] flag works on code units, so a string is a
    list of code units here. *)

From Stdlib Require Import ZArith NArith Ascii String.
From stdpp Require Import base tactics option numbers list.

Set Default Proof Using "Type".

(** ** Strings *)

Definition char := N.
Definition jsstring := list char.

(** An ASCII literal as a JavaScript string: below 128 a character is its
    own code unit. *)
Definition u (s : string) : jsstring := N_of_ascii <$> list_ascii_of_string s.

Definition chSlash : char := 47%N.     (* / *)
Definition chLBracket : char := 91%N.  (* [ *)
Definition chRBracket : char := 93%N.  (* ] *)

Module CharClass.

(** LineTerminator of ECMAScript: LF, CR, LS, PS. *)
Definition isLineTerminator (c : char) : bool :=
  ((c =? 0x0A) || (c =? 0x0D) || (c =? 0x2028) || (c =? 0x2029))%N.

(** The atom [.] (no [s] flag): anything but a line terminator. *)
Definition dot (c : char) : bool := negb (isLineTerminator c).

(** The class [\s]: WhiteSpace and LineTerminator of ECMAScript. *)
Definition space (c : char) : bool :=
  ((c =? 0x09) || (c =? 0x0A) || (c =? 0x0B) || (c =? 0x0C) || (c =? 0x0D)
   || (c =? 0x20) || (c =? 0xA0) || (c =? 0x1680)
   || ((0x2000 <=? c) && (c <=? 0x200A))
   || (c =? 0x2028) || (c =? 0x2029) || (c =? 0x202F) || (c =? 0x205F)
   || (c =? 0x3000) || (c =? 0xFEFF))%N.

(** A literal character, such as [\/], [\[] or [\]]. *)
Definition lit (a c : char) : bool := (c =? a)%N.

End CharClass.

(** ** Regular expressions

    The fragment of the pattern language that the dictionary-line pattern
    uses.  Every quantifier of the pattern is applied to a one-character
    atom, which is what [Repeat] holds. *)

Inductive regex : Type :=
  | Chr (p : char → bool)
  | Seq (r1 r2 : regex)
  | Repeat (greedy : bool) (min : nat) (p : char → bool)
  | Group (n : nat) (r : regex)
  | Opt (r : regex).

(** The captures of groups 1, 2, 3 ... at index 0, 1, 2 ...; a group that
    did not take part in the match is [None] (JavaScript: undefined). *)
Definition Captures := list (option jsstring).

Section Matcher.

Context {R : Type}.

(** [p{min,}] : take as many characters as possible, then give them
    back one at a time until the continuation accepts. *)
Fixpoint repeatGreedy (p : char → bool) (min : nat) (s : jsstring)
    (k : jsstring → option R) {struct s} : option R :=
  let stop := match min with O => k s | S _ => None end in
  match s with
  | c :: s' =>
      if p c then
        match repeatGreedy p (pred min) s' k with
        | Some r => Some r
        | None => stop
        end
      else stop
  | [] => stop
  end.

(** [p{min,}?] : take as few characters as possible, and one more each
    time the continuation refuses. *)
Fixpoint repeatLazy (p : char → bool) (min : nat) (s : jsstring)
    (k : jsstring → option R) {struct s} : option R :=
  let more (m : nat) :=
    match s with
    | c :: s' => if p c then repeatLazy p m s' k else None
    | [] => None
    end in
  match min with
  | O => match k s with
         | Some r => Some r
         | None => more O
         end
  | S m => more m
  end.

(** The backtracking matcher, in continuation-passing style as in the
    ECMAScript specification: [k] is the rest of the pattern. *)
Fixpoint matchRe (r : regex) (s : jsstring) (caps : Captures)
    (k : jsstring → Captures → option R) {struct r} : option R :=
  match r with
  | Chr p =>
      match s with
      | c :: s' => if p c then k s' caps else None
      | [] => None
      end
  | Seq r1 r2 =>
      matchRe r1 s caps (λ s1 caps1, matchRe r2 s1 caps1 k)
  | Repeat greedy min p =>
      (if greedy then repeatGreedy else repeatLazy) p min s (λ s', k s' caps)
  | Group n r1 =>
      matchRe r1 s caps
        (λ s' caps', k s' (<[n := Some (take (length s - length s') s)]> caps'))
  | Opt r1 =>
      match matchRe r1 s caps k with
      | Some x => Some x
      | None => k s caps
      end
  end.

End Matcher.

(** How a successful run of [r] can change the captures it was started
    with, before it calls its continuation. *)
Fixpoint capturesAfter (r : regex) (caps caps' : Captures) : Prop :=
  match r with
  | Chr _ | Repeat _ _ _ => caps' = caps
  | Seq r1 r2 => ∃ caps1, capturesAfter r1 caps caps1 ∧ capturesAfter r2 caps1 caps'
  | Group n r1 => ∃ caps1 v, capturesAfter r1 caps caps1 ∧ caps' = <[n := Some v]> caps1
  | Opt r1 => capturesAfter r1 caps caps' ∨ caps' = caps
  end.

(** The pattern of [renderWordEntries] and [renderNamesEntries],
    [/^(.+?)\s+(?:\[(.*?)\])?\s*\/(.+)\//], piece by piece.  The leading
    [^] is not a node: [exec] below only tries the match at index 0, the
    one place where [^] holds without the [m] flag. *)

(** [(.+?)] *)
Definition headwordPart : regex :=
  Group 0 (Repeat false 1 CharClass.dot).

(** [(?:\[(.*?)\])?] *)
Definition readingPart : regex :=
  Opt (Seq (Chr (CharClass.lit chLBracket))
      (Seq (Group 1 (Repeat false 0 CharClass.dot))
           (Chr (CharClass.lit chRBracket)))).

(** [\/(.+)\/] *)
Definition glossPart : regex :=
  Seq (Chr (CharClass.lit chSlash))
 (Seq (Group 2 (Repeat true 1 CharClass.dot))
      (Chr (CharClass.lit chSlash))).

Definition entryPattern : regex :=
  Seq headwordPart
 (Seq (Repeat true 1 CharClass.space)     (* \s+ *)
 (Seq readingPart
 (Seq (Repeat true 0 CharClass.space)     (* \s* *)
      glossPart))).

(** [str.match(re)] for an anchored pattern without the [g] flag: the
    captures of the first successful path, or [None] for [null]. *)
Definition exec (re : regex) (ngroups : nat) (s : jsstring) : option Captures :=
  matchRe re s (replicate ngroups None) (λ _ caps, Some caps).

Arguments exec : simpl never.

(** [const [kanjiKana, kana, definition] = matches.slice(1)].  Groups 1 and
    3 are not optional in the pattern; [kana] is undefined when the
    bracket part was skipped. *)
Definition ParsedEntry : Type := jsstring * option jsstring * jsstring.

Definition matchEntry (dictEntry : jsstring) : option ParsedEntry :=
  match exec entryPattern 3 dictEntry with
  | Some [Some kanjiKana; kana; Some definition] => Some (kanjiKana, kana, definition)
  | _ => None
  end.


(** JavaScript truthiness of a [string | undefined] value: undefined and
    the empty string are falsy. *)
Definition truthy (s : option jsstring) : bool :=
  match s with
  | Some (_ :: _) => true
  | Some [] | None => false
  end.

(** One element of [result.data]: the dictionary line and the reason
    (null when the word was not de-inflected). *)
Definition DataItem : Type := jsstring * option jsstring.

(** ** [renderWordEntries]: the pre-processing loop *)

Module Word.

Record DisplayEntry := {
  kanjiKana : jsstring;
  kana : list jsstring;
  definition : jsstring;
  reason : option jsstring;
}.

#[global] Instance word_entry_eq_dec : EqDecision DisplayEntry.
Proof. solve_decision. Defined.

(** [const entry = { kanjiKana, kana: [], definition, reason };
     if (kana) { entry.kana.push(kana); }] *)
Definition newEntry (kanjiKana : jsstring) (kana0 : option jsstring)
    (definition : jsstring) (reason : option jsstring) : DisplayEntry :=
  {| kanjiKana := kanjiKana;
     kana := if truthy kana0 then [default [] kana0] else [];
     definition := definition;
     reason := reason |}.

(** [prevEntry.kana.push(kana)] *)
Definition pushKana (prevEntry : DisplayEntry) (kana0 : jsstring) : DisplayEntry :=
  {| kanjiKana := kanjiKana prevEntry;
     kana := kana prevEntry ++ [kana0];
     definition := definition prevEntry;
     reason := reason prevEntry |}.

(** The body of [for (const [dictEntry, reason] of result.data)].
    [prevEntry] is the object at [entries.length - 1], and the push on
    its [kana] array is an update of the array at that index. *)
Definition step (entries : list DisplayEntry) (item : DataItem) : list DisplayEntry :=
  let '(dictEntry, reason) := item in
  match matchEntry dictEntry with
  | None => entries
  | Some (kanjiKana0, kana0, definition0) =>
      match last entries with
      | Some prevEntry =>
          if bool_decide (kanjiKana prevEntry = kanjiKana0)
             && bool_decide (definition prevEntry = definition0)
          then
            if truthy kana0
            then <[pred (length entries) := pushKana prevEntry (default [] kana0)]> entries
            else entries
          else entries ++ [newEntry kanjiKana0 kana0 definition0 reason]
      | None => entries ++ [newEntry kanjiKana0 kana0 definition0 reason]
      end
  end.

Definition entries (data : list DataItem) : list DisplayEntry :=
  foldl step [] data.

(** The lines of [data] that the loop does not skip, as parsed. *)
Definition accepted (data : list DataItem) : list ParsedEntry :=
  omap (λ item, matchEntry item.1) data.

End Word.

(** ** [renderNamesEntries]: the pre-processing loop *)

Module Names.

Record Name := {
  kanji : option jsstring;
  kana : jsstring;
}.

Record DisplayEntry := {
  names : list Name;
  definition : jsstring;
}.

#[global] Instance name_eq_dec : EqDecision Name.
Proof. solve_decision. Defined.

#[global] Instance names_entry_eq_dec : EqDecision DisplayEntry.
Proof. solve_decision. Defined.

(** [const rematch = definition.match(...);
     if (rematch) { [kanjiKana, kana, definition] = rematch.slice(1); }] *)
Definition rematch (m : ParsedEntry) : ParsedEntry :=
  let '(_, _, definition0) := m in
  match matchEntry definition0 with
  | Some m' => m'
  | None => m
  end.

(** [kana ? { kanji: kanjiKana, kana } : { kanji: undefined, kana: kanjiKana }] *)
Definition mkName (kanjiKana0 : jsstring) (kana0 : option jsstring) : Name :=
  if truthy kana0
  then {| kanji := Some kanjiKana0; kana := default [] kana0 |}
  else {| kanji := None; kana := kanjiKana0 |}.

(** The line as the loop sees it after both matches: [None] when the
    line is skipped. *)
Definition parse (dictEntry : jsstring) : option ParsedEntry :=
  rematch <$> matchEntry dictEntry.

(** [prevEntry.names.push(name)] *)
Definition pushName (prevEntry : DisplayEntry) (name : Name) : DisplayEntry :=
  {| names := names prevEntry ++ [name]; definition := definition prevEntry |}.

(** The body of [for (const [dictEntry] of result.data)]. *)
Definition step (entries : list DisplayEntry) (item : DataItem) : list DisplayEntry :=
  let '(dictEntry, _) := item in
  match parse dictEntry with
  | None => entries
  | Some (kanjiKana0, kana0, definition0) =>
      let name := mkName kanjiKana0 kana0 in
      match last entries with
      | Some prevEntry =>
          if bool_decide (definition prevEntry = definition0)
          then <[pred (length entries) := pushName prevEntry name]> entries
          else entries ++ [{| names := [name]; definition := definition0 |}]
      | None => entries ++ [{| names := [name]; definition := definition0 |}]
      end
  end.

Definition entries (data : list DataItem) : list DisplayEntry :=
  foldl step [] data.

(** The lines of [data] that the loop does not skip, as the loop sees
    them after the second match. *)
Definition accepted (data : list DataItem) : list ParsedEntry :=
  omap (λ item, parse item.1) data.

(** The classes of the [namesTable] element:
    [namesTable.classList.add('name-table');
     if (entries.length > 4) { namesTable.classList.add('-multicol'); }] *)
Definition tableClasses (entries : list DisplayEntry) : list string :=
  "name-table"%string ::
  (if bool_decide (4 < length entries) then ["-multicol"%string] else []).

End Names.

(** ** [getSelectedIndex] *)

Record PopupOptions := {
  showDefinitions : bool;
  copyMode : option bool;   (* copyMode?: boolean *)
  copyIndex : option Z;     (* copyIndex?: number, an integer here *)
}.

(** [!!options.copyMode && typeof options.copyIndex !== 'undefined' &&
     numEntries ? options.copyIndex % numEntries : -1].
    [%] is the remainder of the truncating division: its sign is the sign
    of the dividend, which is [Z.rem].  (For a negative multiple of
    [numEntries] JavaScript gives -0, which [===] does not tell from 0.) *)
Definition getSelectedIndex (options : PopupOptions) (numEntries : Z) : Z :=
  if default false (copyMode options)
     && bool_decide (is_Some (copyIndex options))
     && negb (numEntries =? 0)%Z
  then (* copyIndex is defined on this branch *)
    Z.rem (default 0%Z (copyIndex options)) numEntries
  else (-1)%Z.

(** The classes of the entry elements, in both [renderWordEntries] and
    [renderNamesEntries]:
    [entryDiv.classList.add('entry');
     if (index === selectedIndex) { entryDiv.classList.add('-selected'); }
     index++;] *)
Definition entryClasses {A : Type} (options : PopupOptions) (entries : list A)
    : list (list string) :=
  let selectedIndex := getSelectedIndex options (Z.of_nat (length entries)) in
  imap (λ index _,
          "entry"%string ::
          (if bool_decide (Z.of_nat index = selectedIndex)
           then ["-selected"%string] else []))
       entries.

(** ** Sample dictionary lines

    The lines quoted in the comments of [popup.ts], as code units. *)

Module Samples.

Local Open Scope N_scope.

(** 仔クジラ *)
Definition koKujira : jsstring := [0x4ED4; 0x30AF; 0x30B8; 0x30E9].
(** 仔鯨 *)
Definition koKujiraKanji : jsstring := [0x4ED4; 0x9BE8].
(** こくじら *)
Definition kokujira : jsstring := [0x3053; 0x304F; 0x3058; 0x3089].
(** あっさり *)
Definition assari : jsstring := [0x3042; 0x3063; 0x3055; 0x308A].
(** あか組４ *)
Definition akagumi4 : jsstring := [0x3042; 0x304B; 0x7D44; 0xFF14].
(** あかぐみふぉー *)
Definition akagumiFoHira : jsstring :=
  [0x3042; 0x304B; 0x3050; 0x307F; 0x3075; 0x3049; 0x30FC].
(** あかぐみフォー *)
Definition akagumiFoKata : jsstring :=
  [0x3042; 0x304B; 0x3050; 0x307F; 0x30D5; 0x30A9; 0x30FC].

(** [仔クジラ [こくじら] /(n) whale calf/] *)
Definition whaleCalf1 : jsstring :=
  koKujira ++ u " [" ++ kokujira ++ u "] /(n) whale calf/".
(** [仔鯨 [こくじら] /(n) whale calf/] *)
Definition whaleCalf2 : jsstring :=
  koKujiraKanji ++ u " [" ++ kokujira ++ u "] /(n) whale calf/".
(** [あっさり /(adv,adv-to,vs,on-mim) easily/readily/quickly/(P)/] *)
Definition easily : jsstring :=
  assari ++ u " /(adv,adv-to,vs,on-mim) easily/readily/quickly/(P)/".

(** [あか組４ [あかぐみフォー] /Akagumi Four (h)/], the line embedded in
    the definition field of the next one. *)
Definition akagumiInner : jsstring :=
  akagumi4 ++ u " [" ++ akagumiFoKata ++ u "] /Akagumi Four (h)/".
(** [あか組４ [あかぐみふぉー] /あか組４ [あかぐみフォー] /Akagumi Four (h)//],
    as in the comment of [renderNamesEntries]. *)
Definition akagumiOuter : jsstring :=
  akagumi4 ++ u " [" ++ akagumiFoHira ++ u "] /" ++ akagumiInner ++ u "/".
(** The same line with one closing slash only. *)
Definition akagumiOneSlash : jsstring :=
  akagumi4 ++ u " [" ++ akagumiFoHira ++ u "] /" ++ akagumiInner.

(** A line whose embedded line has an embedded line again:
    [a [b] /c [d] /e [f] /g///]. *)
Definition nestedTwice : jsstring := u "a [b] /c [d] /e [f] /g///".

(** Options with copy mode on and the cursor at [i]. *)
Definition copyAt (i : Z) : PopupOptions :=
  {| showDefinitions := true; copyMode := Some true; copyIndex := Some i |}.

End Samples.

(** ** The text a match runs over

    The part of a dictionary line that the optional group
    [(?:\[(.*?)\])?] takes: the reading in brackets, or nothing when the
    group is skipped. *)
Definition bracketed (kana : option jsstring) : jsstring :=
  match kana with
  | Some reading => chLBracket :: reading ++ [chRBracket]
  | None => []
  end.

(** ** The document tree that the functions build

    [document.createElement], [classList.add] and [append] build a tree
    of elements and text nodes; the functions are modelled by the tree
    they return.  [ElementHTML] is an element whose content was set
    through [innerHTML] and is kept as markup; the only markup that the
    functions set is made of tags and plain characters, with no character
    reference and no comment. *)

#[global] Instance class_name_eq_dec : EqDecision string := String.string_dec.

#[warnings="-register-all"]
Inductive Node : Type :=
  | Text (data : jsstring)
  | Element (tagName : string) (classList : list string) (childNodes : list Node)
  | ElementHTML (tagName : string) (classList : list string) (innerHTML : string).

Definition isElement (n : Node) : bool :=
  match n with
  | Text _ => false
  | Element _ _ _ | ElementHTML _ _ _ => true
  end.

(** [node.classList.contains(token)] *)
Definition classListContains (token : string) (n : Node) : bool :=
  match n with
  | Text _ => false
  | Element _ classes _ | ElementHTML _ classes _ => bool_decide (token ∈ classes)
  end.

(** [parent.lastElementChild]: the last child that is an element, null
    when there is none. *)
Definition lastElementChild (childNodes : list Node) : option Node :=
  last (filter (λ n, isElement n = true) childNodes).

(** The text of markup made of tags and plain characters only: what is
    between [<] and [>] is left out, the rest is kept. *)
Fixpoint markupText (inTag : bool) (html : list ascii) : jsstring :=
  match html with
  | [] => []
  | c :: rest =>
      if inTag
      then markupText (negb (Ascii.eqb c ">")) rest
      else if Ascii.eqb c "<"
           then markupText true rest
           else N_of_ascii c :: markupText false rest
  end.

(** [node.textContent] *)
Fixpoint textContent (n : Node) : jsstring :=
  match n with
  | Text data => data
  | Element _ _ childNodes =>
      (fix go (l : list Node) : jsstring :=
         match l with
         | [] => []
         | c :: l' => textContent c ++ go l'
         end) childNodes
  | ElementHTML _ _ innerHTML => markupText false (list_ascii_of_string innerHTML)
  end.

(** [str.replace(/\//g, '; ')]: every slash becomes a semicolon and a
    space. *)
Definition replaceSlashes (str : jsstring) : jsstring :=
  str ≫= λ c, if bool_decide (c = chSlash) then u "; " else [c].

(** [array.join(separator)] *)
Fixpoint join (separator : jsstring) (array : list jsstring) : jsstring :=
  match array with
  | [] => []
  | [x] => x
  | x :: rest => x ++ separator ++ join separator rest
  end.

(** [renderCopyInstructions(options = { kanji: false })] *)
Definition renderCopyInstructions (kanji : bool) : Node :=
  ElementHTML "div" ["copy"%string]
    (if kanji
     then "Copy: <kbd>e</kbd> = entry, <kbd>w</kbd> = kanji, <kbd>f</kbd> = fields, <kbd>Esc</kbd> = cancel"
     else "Copy: <kbd>e</kbd> = entry, <kbd>w</kbd> = word, <kbd>f</kbd> = fields, <kbd>Esc</kbd> = cancel")%string.

(** ** [renderWordEntries]: the rendering loop *)

Module WordView.

(** ['、 '] *)
Definition kanaSeparator : jsstring := [0x3001; 0x20]%N.

(** [const kanjiSpan = document.createElement('span');
     kanjiSpan.classList.add(entry.kana.length ? 'w-kanji' : 'w-kana');
     kanjiSpan.append(entry.kanjiKana);] *)
Definition kanjiSpan (entry : Word.DisplayEntry) : Node :=
  Element "span"
    [if bool_decide (length (Word.kana entry) ≠ 0) then "w-kanji" else "w-kana"]%string
    [Text (Word.kanjiKana entry)].

Definition kanaSpan (kana : jsstring) : Node :=
  Element "span" ["w-kana"%string] [Text kana].

(** What the loop over [entry.kana] is shown below to append after
    [kanjiSpan]: the readings, with a separator before each of them but
    the first. *)
Definition readingNodes (kana : list jsstring) : list Node :=
  match kana with
  | [] => []
  | first :: rest =>
      kanaSpan first :: (rest ≫= λ k, [Text kanaSeparator; kanaSpan k])
  end.

(** The body of [for (const kana of entry.kana)], on the children of
    [headingDiv].  [headingDiv.lastElementChild!] is dereferenced without
    a test: [None] stands for the TypeError that a null would raise. *)
Definition kanaStep (children : option (list Node)) (kana : jsstring)
    : option (list Node) :=
  nodes ← children;
  lastChild ← lastElementChild nodes;
  let nodes' :=
    if classListContains "w-kana" lastChild
    then nodes ++ [Text kanaSeparator]
    else nodes in
  Some (nodes' ++ [kanaSpan kana]).

(** [reasonSpan.append(`(${entry.reason})`)] *)
Definition reasonSpan (reason : jsstring) : Node :=
  Element "span" ["w-conj"%string] [Text (u "(" ++ reason ++ u ")")].

(** The children of [headingDiv] for one entry. *)
Definition heading (entry : Word.DisplayEntry) : option (list Node) :=
  nodes ← foldl kanaStep (Some [kanjiSpan entry]) (Word.kana entry);
  Some (if truthy (Word.reason entry)
        then nodes ++ [reasonSpan (default [] (Word.reason entry))]
        else nodes).

(** [definitionSpan], present under [options.showDefinitions]. *)
Definition definitionSpan (entry : Word.DisplayEntry) : Node :=
  Element "span" ["w-def"%string] [Text (replaceSlashes (Word.definition entry))].

Definition entryDiv (options : PopupOptions) (selected : bool)
    (entry : Word.DisplayEntry) : option Node :=
  nodes ← heading entry;
  Some (Element "div"
          ("entry" :: if selected then ["-selected"] else [])%string
          (Element "div" [] nodes
           :: if showDefinitions options then [definitionSpan entry] else [])).

(** What [entryDiv] is shown below to return: the element of one entry,
    with the readings laid out by [readingNodes]. *)
Definition entryNode (options : PopupOptions) (selected : bool)
    (entry : Word.DisplayEntry) : Node :=
  Element "div"
    ("entry" :: if selected then ["-selected"] else [])%string
    (Element "div" []
       (kanjiSpan entry
        :: readingNodes (Word.kana entry)
        ++ if truthy (Word.reason entry)
           then [reasonSpan (default [] (Word.reason entry))]
           else [])
     :: if showDefinitions options then [definitionSpan entry] else []).

(** The body of [for (const entry of entries)]: the state is [index] and
    the children appended to [container] so far. *)
Definition entryStep (options : PopupOptions) (selectedIndex : Z)
    (state : option (nat * list Node)) (entry : Word.DisplayEntry)
    : option (nat * list Node) :=
  '(index, nodes) ← state;
  div ← entryDiv options (bool_decide (Z.of_nat index = selectedIndex)) entry;
  Some (S index, nodes ++ [div]).

(** [renderWordEntries(result, title, options)], with [result.data] and
    [result.more] as arguments. *)
Definition renderWordEntries (data : list DataItem) (more : bool)
    (title : option jsstring) (options : PopupOptions) : option Node :=
  let titleNodes :=
    if truthy title
    then [Element "div" ["title"%string] [Text (default [] title)]]
    else [] in
  let entries := Word.entries data in
  let selectedIndex := getSelectedIndex options (Z.of_nat (length entries)) in
  '(_, nodes) ← foldl (entryStep options selectedIndex) (Some (0, titleNodes)) entries;
  let nodes1 :=
    if more then nodes ++ [Element "div" ["more"%string] [Text (u "...")]] else nodes in
  let nodes2 :=
    if default false (copyMode options)
    then nodes1 ++ [renderCopyInstructions false]
    else nodes1 in
  Some (Element "div" ["wordlist"%string] nodes2).

End WordView.

(** ** [renderKanjiEntry]: the readings

    The callback of [entry.onkun.forEach], on the children of [yomiDiv]. *)

Module KanjiView.

Definition chDot : char := 46%N.  (* . *)

(** [str.indexOf('.')], with [None] for -1. *)
Fixpoint indexOfDot (str : jsstring) : option nat :=
  match str with
  | [] => None
  | c :: rest =>
      if bool_decide (c = chDot) then Some 0 else S <$> indexOfDot rest
  end.

(** [if (index !== 0) { yomiDiv.append('\u3001'); }
     const highlightIndex = reading.indexOf('.');
     if (highlightIndex === -1) { yomiDiv.append(reading); }
     else { yomiDiv.append(reading.substr(0, highlightIndex)); ...
            highlightSpan.append(reading.substr(highlightIndex + 1)); ... }] *)
Definition readingNodes (index : nat) (reading : jsstring) : list Node :=
  (if bool_decide (index ≠ 0) then [Text [0x3001%N]] else [])
  ++ match indexOfDot reading with
     | None => [Text reading]
     | Some highlightIndex =>
         [Text (take highlightIndex reading);
          Element "span" ["k-yomi-hi"%string]
            [Text (drop (highlightIndex + 1) reading)]]
     end.

Definition onkunNodes (onkun : list jsstring) : list Node :=
  concat (imap readingNodes onkun).

End KanjiView.

(** * Properties *)

(** ** The character classes *)

Lemma lineTerminator_space (c : char) :
  CharClass.isLineTerminator c = true → CharClass.space c = true.
Proof.
  unfold CharClass.isLineTerminator, CharClass.space.
  intros H. repeat (apply orb_true_iff in H as [H|H]);
    apply N.eqb_eq in H; subst c; reflexivity.
Qed.

Lemma not_space_dot (c : char) :
  CharClass.space c = false → CharClass.dot c = true.
Proof.
  intros Hs. unfold CharClass.dot.
  destruct (CharClass.isLineTerminator c) eqn:E; [|reflexivity].
  apply lineTerminator_space in E. congruence.
Qed.

Lemma lit_true (a c : char) : CharClass.lit a c = true ↔ c = a.
Proof. unfold CharClass.lit. apply N.eqb_eq. Qed.

Lemma lit_false (a c : char) : CharClass.lit a c = false ↔ c ≠ a.
Proof. unfold CharClass.lit. apply N.eqb_neq. Qed.

(** ** The quantifiers *)

Section Quantifiers.

Context {R : Type}.
Implicit Types (p : char → bool) (s t pre : jsstring) (k : jsstring → option R).

(** A greedy quantifier fails when the continuation refuses every
    position it can stop at. *)
Lemma repeatGreedy_none p min s k :
  (∀ t, t `suffix_of` s → k t = None) → repeatGreedy p min s k = None.
Proof.
  revert min. induction s as [|c s IH]; intros min Hk; simpl.
  - destruct min; [apply Hk|]; done.
  - rewrite IH by (intros t Ht; apply Hk, suffix_cons_r, Ht).
    rewrite (Hk (c :: s)) by done. by destruct (p c), min.
Qed.

(** At a character outside the class (or at the end of input) the
    quantifier cannot take one more character. *)
Lemma repeatGreedy_stuck p s k :
  head (p <$> s) ≠ Some true → repeatGreedy p 1 s k = None.
Proof.
  destruct s as [|c s]; simpl; [done|].
  destruct (p c); [done|]. done.
Qed.

(** The greedy quantifier takes the whole run [pre] when nothing longer
    is accepted and the continuation accepts right after [pre]. *)
Lemma repeatGreedy_app p min pre s k r :
  Forall (λ c, p c = true) pre → min ≤ length pre →
  repeatGreedy p 1 s k = None → k s = Some r →
  repeatGreedy p min (pre ++ s) k = Some r.
Proof.
  intros Hpre. revert min. induction Hpre as [|c pre Hc _ IH]; intros min Hmin Hlong Hk.
  - simpl in Hmin. assert (min = 0) as -> by lia. simpl app.
    destruct s as [|c s]; simpl in *; [done|].
    destruct (p c); [|done].
    destruct (repeatGreedy p 0 s k); done.
  - simpl. rewrite Hc. rewrite (IH (pred min)); [done| simpl in Hmin; lia | done | done].
Qed.

Lemma repeatLazy_now p s k r :
  k s = Some r → repeatLazy p 0 s k = Some r.
Proof. intros Hk. destruct s; simpl; by rewrite Hk. Qed.

(** The lazy quantifier walks over [pre] when the continuation refuses
    every position before its end. *)
Lemma repeatLazy_app p min pre s k :
  Forall (λ c, p c = true) pre → min ≤ length pre →
  (∀ t, t ≠ [] → t `suffix_of` pre → k (t ++ s) = None) →
  repeatLazy p min (pre ++ s) k = repeatLazy p 0 s k.
Proof.
  intros Hpre. revert min. induction Hpre as [|c pre Hc _ IH]; intros min Hmin Hk.
  - simpl in Hmin. by assert (min = 0) as -> by lia.
  - assert (repeatLazy p (pred min) (pre ++ s) k = repeatLazy p 0 s k) as Hrec.
    { apply IH; [simpl in Hmin; lia|].
      intros t Ht Hsuf. apply Hk; [done|]. by apply suffix_cons_r. }
    destruct min as [|m]; simpl.
    + assert (k (c :: pre ++ s) = None) as -> by (by apply (Hk (c :: pre))).
      by rewrite Hc.
    + by rewrite Hc.
Qed.

(** A quantifier only succeeds through its continuation. *)
Lemma repeatGreedy_Some p min s k x :
  repeatGreedy p min s k = Some x → ∃ s', k s' = Some x.
Proof.
  revert min. induction s as [|c s IH]; intros min; simpl.
  - destruct min; [eauto|done].
  - destruct (p c).
    + destruct (repeatGreedy p (pred min) s k) eqn:Hrec.
      * intros [= <-]. by eapply IH.
      * destruct min; [eauto|done].
    + destruct min; [eauto|done].
Qed.

Lemma repeatLazy_Some p min s k x :
  repeatLazy p min s k = Some x → ∃ s', k s' = Some x.
Proof.
  revert min. induction s as [|c s IH]; intros min; simpl.
  - destruct min; [|done]. destruct (k []) eqn:Hk; [|done].
    intros [= <-]. eauto.
  - destruct min as [|m].
    + destruct (k (c :: s)) eqn:Hk; [intros [= <-]; eauto|].
      destruct (p c); [apply IH|done].
    + destruct (p c); [apply IH|done].
Qed.

End Quantifiers.

(** ** The matcher *)

(** A match is always accepted by the continuation, with captures that
    the pattern accounts for. *)
Lemma matchRe_Some {R : Type} (r : regex) (s : jsstring) (caps : Captures)
    (k : jsstring → Captures → option R) (x : R) :
  matchRe r s caps k = Some x →
  ∃ s' caps', k s' caps' = Some x ∧ capturesAfter r caps caps'.
Proof.
  revert s caps k. induction r as [p|r1 IH1 r2 IH2|greedy min p|n r1 IH1|r1 IH1];
    intros s caps k; simpl.
  - destruct s as [|c s]; [done|]. destruct (p c); [eauto|done].
  - intros H1. apply IH1 in H1 as (s1 & caps1 & H2 & Hc1).
    apply IH2 in H2 as (s2 & caps2 & Hk & Hc2). eauto 6.
  - destruct greedy; intros Hq.
    + apply repeatGreedy_Some in Hq as [s' Hk]. eauto.
    + apply repeatLazy_Some in Hq as [s' Hk]. eauto.
  - intros H1. apply IH1 in H1 as (s1 & caps1 & Hk & Hc1). eauto 8.
  - destruct (matchRe r1 s caps k) eqn:H1.
    + intros [= <-]. apply IH1 in H1 as (s1 & caps1 & Hk & Hc1). eauto.
    + eauto.
Qed.

(** When the dictionary-line pattern matches, groups 1 and 3 are defined:
    [matchEntry] is [None] only when [match] gives null. *)
Lemma exec_entryPattern_captures (s : jsstring) (caps : Captures) :
  exec entryPattern 3 s = Some caps →
  ∃ kanjiKana kana definition, caps = [Some kanjiKana; kana; Some definition].
Proof.
  unfold exec. intros Hm. apply matchRe_Some in Hm as (s' & caps' & [= ->] & Hc).
  unfold entryPattern, headwordPart, readingPart, glossPart in Hc. simpl in Hc.
  destruct Hc as (c1 & (c0 & v & -> & ->) & c2 & -> & c3 & Hopt & c4 & -> & c5 & ->
                  & c6 & (c7 & g & -> & ->) & ->).
  destruct Hopt as [(c8 & -> & c9 & (c10 & w & -> & ->) & ->)| ->]; simpl; eauto.
Qed.

Lemma matchEntry_None (s : jsstring) :
  matchEntry s = None ↔ exec entryPattern 3 s = None.
Proof.
  unfold matchEntry. destruct (exec entryPattern 3 s) as [caps|] eqn:Hm; [|done].
  apply exec_entryPattern_captures in Hm as (a & b & c & ->). done.
Qed.

(** ** The dictionary-line pattern on well-formed lines *)

Lemma take_matched (pre s : jsstring) :
  take (length (pre ++ s) - length s) (pre ++ s) = pre.
Proof.
  rewrite length_app.
  replace (length pre + length s - length s) with (length pre) by lia.
  by rewrite take_app_length.
Qed.

Section Grammar.

Implicit Types (H R G T ws : jsstring).

Local Abbreviation final := (λ (_ : jsstring) (caps' : Captures), Some caps').

(** [\/(.+)\/] on [/G/T], where [T] has no slash: the greedy group stops
    at the last slash. *)
Lemma match_gloss G T (caps : Captures) :
  G ≠ [] → Forall (λ c, CharClass.dot c = true) G → Forall (λ c, c ≠ chSlash) T →
  matchRe glossPart (chSlash :: G ++ chSlash :: T) caps final
  = Some (<[2 := Some G]> caps).
Proof.
  intros HG HGdot HT. unfold glossPart. cbn [matchRe].
  replace (CharClass.lit chSlash chSlash) with true by done.
  erewrite repeatGreedy_app; [reflexivity|exact HGdot| | |].
  - destruct G; [done|simpl; lia].
  - simpl. replace (CharClass.dot chSlash) with true by done.
    rewrite repeatGreedy_none; [done|].
    intros t Ht. destruct t as [|c t]; [done|].
    assert (c ∈ T) as Hc.
    { destruct Ht as [l ->]. apply elem_of_app. right. constructor. }
    rewrite Forall_forall in HT. apply HT in Hc.
    apply lit_false in Hc. by rewrite Hc.
  - simpl. replace (CharClass.lit chSlash chSlash) with true by done.
    do 3 f_equal. apply (take_matched G (chSlash :: T)).
Qed.

(** [\s*\/(.+)\/] *)
Lemma match_spaces_gloss ws G T (caps : Captures) :
  Forall (λ c, CharClass.space c = true) ws →
  G ≠ [] → Forall (λ c, CharClass.dot c = true) G → Forall (λ c, c ≠ chSlash) T →
  matchRe (Seq (Repeat true 0 CharClass.space) glossPart)
    (ws ++ chSlash :: G ++ chSlash :: T) caps final
  = Some (<[2 := Some G]> caps).
Proof.
  intros Hws HG HGdot HT. cbn [matchRe].
  apply repeatGreedy_app; [exact Hws|lia| |].
  - by apply repeatGreedy_stuck.
  - by apply match_gloss.
Qed.

(** [(?:\[(.*?)\])?\s*\/(.+)\/] on a bracketed reading: the lazy group
    stops at the first closing bracket. *)
Lemma match_reading R ws G T (caps : Captures) :
  Forall (λ c, CharClass.dot c = true ∧ c ≠ chRBracket) R →
  Forall (λ c, CharClass.space c = true) ws →
  G ≠ [] → Forall (λ c, CharClass.dot c = true) G → Forall (λ c, c ≠ chSlash) T →
  matchRe (Seq readingPart (Seq (Repeat true 0 CharClass.space) glossPart))
    (chLBracket :: R ++ chRBracket :: ws ++ chSlash :: G ++ chSlash :: T) caps final
  = Some (<[2 := Some G]> (<[1 := Some R]> caps)).
Proof.
  intros HR Hws HG HGdot HT. unfold readingPart.
  cbn [matchRe]. replace (CharClass.lit chLBracket chLBracket) with true by done.
  rewrite repeatLazy_app; [|by eapply Forall_impl; [exact HR|intros ? []]|lia|].
  - erewrite repeatLazy_now; [reflexivity|]. cbv beta.
    replace (CharClass.lit chRBracket chRBracket) with true by done.
    rewrite (take_matched R). by apply match_spaces_gloss.
  - intros t Ht Hsuf. destruct t as [|c t]; [done|]. simpl.
    assert (c ∈ R) as Hc.
    { destruct Hsuf as [l ->]. apply elem_of_app. right. constructor. }
    rewrite Forall_forall in HR. apply HR in Hc as [_ Hc].
    apply lit_false in Hc. by rewrite Hc.
Qed.

(** The same part of the pattern when the line has no bracket: the
    optional group is skipped and its capture stays undefined. *)
Lemma match_no_reading G T (caps : Captures) :
  G ≠ [] → Forall (λ c, CharClass.dot c = true) G → Forall (λ c, c ≠ chSlash) T →
  matchRe (Seq readingPart (Seq (Repeat true 0 CharClass.space) glossPart))
    (chSlash :: G ++ chSlash :: T) caps final
  = Some (<[2 := Some G]> caps).
Proof.
  intros HG HGdot HT. unfold readingPart. cbn [matchRe].
  replace (CharClass.lit chLBracket chSlash) with false by done.
  by apply (match_spaces_gloss []).
Qed.

(** [(.+?)\s+] followed by the rest of the pattern: the lazy group stops
    at the first white space, and [\s+] takes the whole run of it. *)
Lemma match_headword H ws (rest : jsstring) (caps r : Captures) :
  H ≠ [] → Forall (λ c, CharClass.space c = false) H →
  ws ≠ [] → Forall (λ c, CharClass.space c = true) ws →
  head (CharClass.space <$> rest) ≠ Some true →
  matchRe (Seq readingPart (Seq (Repeat true 0 CharClass.space) glossPart))
    rest (<[0 := Some H]> caps) final = Some r →
  matchRe entryPattern (H ++ ws ++ rest) caps final = Some r.
Proof.
  intros HH HHns Hws Hwss Hrest Htail. unfold entryPattern, headwordPart.
  cbn [matchRe].
  rewrite repeatLazy_app.
  - apply repeatLazy_now. rewrite (take_matched H).
    apply repeatGreedy_app; [exact Hwss| |by apply repeatGreedy_stuck|exact Htail].
    destruct ws; [done|simpl; lia].
  - eapply Forall_impl; [exact HHns|]. intros c. apply not_space_dot.
  - destruct H; [done|simpl; lia].
  - intros t Ht Hsuf. destruct t as [|c t]; [done|].
    apply repeatGreedy_stuck. simpl.
    assert (c ∈ H) as Hc.
    { destruct Hsuf as [l ->]. apply elem_of_app. right. constructor. }
    rewrite Forall_forall in HHns. apply HHns in Hc. rewrite Hc. done.
Qed.

End Grammar.

(** A line [H [R] /G/T]: the headword is [H], the reading is [R], and the
    definition is [G], whatever follows the last slash. *)
Lemma matchEntry_bracketed (H ws1 R ws2 G T : jsstring) :
  H ≠ [] → Forall (λ c, CharClass.space c = false) H →
  ws1 ≠ [] → Forall (λ c, CharClass.space c = true) ws1 →
  Forall (λ c, CharClass.dot c = true ∧ c ≠ chRBracket) R →
  Forall (λ c, CharClass.space c = true) ws2 →
  G ≠ [] → Forall (λ c, CharClass.dot c = true) G →
  Forall (λ c, c ≠ chSlash) T →
  matchEntry (H ++ ws1 ++ chLBracket :: R ++ chRBracket :: ws2 ++
              chSlash :: G ++ chSlash :: T)
  = Some (H, Some R, G).
Proof.
  intros. unfold matchEntry, exec.
  erewrite match_headword; [|done..|by apply match_reading].
  reflexivity.
Qed.

(** A line [H /G/T] without brackets: the reading is undefined. *)
Lemma matchEntry_unbracketed (H ws G T : jsstring) :
  H ≠ [] → Forall (λ c, CharClass.space c = false) H →
  ws ≠ [] → Forall (λ c, CharClass.space c = true) ws →
  G ≠ [] → Forall (λ c, CharClass.dot c = true) G →
  Forall (λ c, c ≠ chSlash) T →
  matchEntry (H ++ ws ++ chSlash :: G ++ chSlash :: T) = Some (H, None, G).
Proof.
  intros. unfold matchEntry, exec.
  erewrite match_headword; [|done..|by apply match_no_reading].
  reflexivity.
Qed.

(** The lines quoted in the comments of [renderWordEntries]. *)
Example matchEntry_whaleCalf :
  matchEntry Samples.whaleCalf1
  = Some (Samples.koKujira, Some Samples.kokujira, u "(n) whale calf").
Proof. vm_compute. reflexivity. Qed.

Example matchEntry_easily :
  matchEntry Samples.easily
  = Some (Samples.assari, None,
          u "(adv,adv-to,vs,on-mim) easily/readily/quickly/(P)").
Proof. vm_compute. reflexivity. Qed.

(** A headword with white space inside is found by backtracking, and the
    definition runs to the last slash of the line. *)
Example matchEntry_backtracks :
  matchEntry (u "a b [c] /g/ x/ y") = Some (u "a b", Some (u "c"), u "g/ x").
Proof. vm_compute. reflexivity. Qed.

Example matchEntry_no_slash : matchEntry (u "a [b] c") = None.
Proof. vm_compute. reflexivity. Qed.

(** ** The grouping loops *)

Lemma last_update_last {A : Type} (l : list A) (x : A) :
  l ≠ [] → last (<[pred (length l) := x]> l) = Some x.
Proof.
  intros Hl. rewrite last_lookup, length_insert.
  apply list_lookup_insert_eq. destruct l; [done|simpl; lia].
Qed.

Lemma update_last_snoc {A : Type} (l : list A) (x y : A) :
  <[pred (length (l ++ [x])) := y]> (l ++ [x]) = l ++ [y].
Proof.
  rewrite length_app. simpl.
  replace (pred (length l + 1)) with (length l + 0) by lia.
  by rewrite insert_app_r.
Qed.

(** Rewrite with an instance of a lemma about [l ++ [x]] at a list that
    is written out. *)
Ltac rewrite_snoc H :=
  let Hs := fresh "Hs" in
  pose proof H as Hs; cbn [app] in Hs; rewrite Hs; clear Hs.

Lemma last_is_snoc {A : Type} (l : list A) (x : A) :
  last l = Some x → ∃ l0, l = l0 ++ [x].
Proof.
  intros Hl. destruct l as [|a l] using rev_ind; [done|].
  rewrite last_snoc in Hl. injection Hl as ->. by exists l.
Qed.

Module WordFacts.
Import Word.

Lemma word_entries_snoc (data : list DataItem) (item : DataItem) :
  entries (data ++ [item]) = step (entries data) item.
Proof. unfold entries. by rewrite foldl_snoc. Qed.

Lemma word_entries_app (pre post : list DataItem) :
  entries (pre ++ post) = foldl step (entries pre) post.
Proof. unfold entries. by rewrite foldl_app. Qed.

Lemma word_step_skip (es : list DisplayEntry) (item : DataItem) :
  matchEntry item.1 = None → step es item = es.
Proof. destruct item as [dictEntry reason0]. simpl. intros H. unfold step. by rewrite H. Qed.

(** What the loop body does to [entries] for a line that matches. *)
Lemma word_step_empty dictEntry reason0 k ka d :
  matchEntry dictEntry = Some (k, ka, d) →
  step [] (dictEntry, reason0) = [newEntry k ka d reason0].
Proof. intros H. unfold step. by rewrite H. Qed.

Lemma word_step_merge (es0 : list DisplayEntry) prev dictEntry reason0 k ka d :
  matchEntry dictEntry = Some (k, ka, d) →
  kanjiKana prev = k → definition prev = d →
  step (es0 ++ [prev]) (dictEntry, reason0)
  = es0 ++ [if truthy ka then pushKana prev (default [] ka) else prev].
Proof.
  intros H Hk Hd. unfold step. rewrite H, last_snoc.
  rewrite !bool_decide_eq_true_2 by done. simpl.
  destruct (truthy ka); [|done]. apply update_last_snoc.
Qed.

Lemma word_step_new (es0 : list DisplayEntry) prev dictEntry reason0 k ka d :
  matchEntry dictEntry = Some (k, ka, d) →
  ¬ (kanjiKana prev = k ∧ definition prev = d) →
  step (es0 ++ [prev]) (dictEntry, reason0)
  = (es0 ++ [prev]) ++ [newEntry k ka d reason0].
Proof.
  intros H Hne. unfold step. rewrite H, last_snoc.
  destruct (decide (kanjiKana prev = k)) as [Hk|Hk];
    destruct (decide (definition prev = d)) as [Hd|Hd];
    try (exfalso; apply Hne; done);
    rewrite ?(bool_decide_eq_true_2 _ Hk), ?(bool_decide_eq_false_2 _ Hk),
            ?(bool_decide_eq_true_2 _ Hd), ?(bool_decide_eq_false_2 _ Hd);
    done.
Qed.

(** The headword and definition of the last display entry are those of
    the last line that matched. *)
Lemma word_last_entry_key (data : list DataItem) :
  (λ e, (kanjiKana e, definition e)) <$> last (entries data)
  = (λ m : ParsedEntry, (m.1.1, m.2)) <$> last (accepted data).
Proof.
  induction data as [|item data IH] using rev_ind; [done|].
  rewrite word_entries_snoc. unfold accepted in *. rewrite omap_app.
  destruct item as [dictEntry reason0]. cbn [omap list_omap fst].
  destruct (matchEntry dictEntry) as [[[k ka] d]|] eqn:Hm.
  - rewrite last_snoc. cbn [fmap option_fmap option_map fst snd].
    destruct (last (entries data)) as [prev|] eqn:Hlast.
    + apply last_is_snoc in Hlast as [es0 Hes]. rewrite Hes.
      destruct (decide (kanjiKana prev = k ∧ definition prev = d)) as [[Hk Hd]|Hne].
      * rewrite (word_step_merge _ _ _ _ _ _ _ Hm Hk Hd), last_snoc. simpl.
        destruct (truthy ka); simpl; by rewrite Hk, Hd.
      * rewrite (word_step_new _ _ _ _ _ _ _ Hm Hne).
        by rewrite last_snoc.
    + apply last_None in Hlast. rewrite Hlast.
      by rewrite (word_step_empty _ _ _ _ _ Hm).
  - rewrite word_step_skip by done. by rewrite app_nil_r.
Qed.

(** The loop body leaves every entry but the last one as it is, and
    never removes an entry. *)
Lemma word_step_frame (es : list DisplayEntry) (item : DataItem) (i : nat) :
  i < pred (length es) → step es item !! i = es !! i.
Proof.
  intros Hi. unfold step. destruct item as [dictEntry reason0].
  destruct (matchEntry dictEntry) as [[[k ka] d]|]; [|done].
  destruct (last es) as [prev|]; [|apply lookup_app_l; lia].
  destruct (_ && _); [|apply lookup_app_l; lia].
  destruct (truthy ka); [|done]. apply list_lookup_insert_ne. lia.
Qed.

Lemma word_step_length (es : list DisplayEntry) (item : DataItem) :
  length es ≤ length (step es item).
Proof.
  unfold step. destruct item as [dictEntry reason0].
  destruct (matchEntry dictEntry) as [[[k ka] d]|]; [|done].
  destruct (last es) as [prev|]; [|rewrite length_app; lia].
  destruct (_ && _); [|rewrite length_app; lia].
  destruct (truthy ka); [|done]. by rewrite length_insert.
Qed.

Lemma word_entries_length_mono (pre post : list DataItem) :
  length (entries pre) ≤ length (entries (pre ++ post)).
Proof.
  induction post as [|item post IH] using rev_ind.
  - by rewrite app_nil_r.
  - rewrite app_assoc, word_entries_snoc.
    etrans; [exact IH|apply word_step_length].
Qed.

Lemma word_entries_frame (pre post : list DataItem) (i : nat) :
  i < pred (length (entries pre)) →
  entries (pre ++ post) !! i = entries pre !! i.
Proof.
  intros Hi. induction post as [|item post IH] using rev_ind.
  - by rewrite app_nil_r.
  - rewrite app_assoc, word_entries_snoc, word_step_frame; [exact IH|].
    pose proof (word_entries_length_mono pre post). lia.
Qed.

End WordFacts.

Module NamesFacts.
Import Names.

Lemma names_entries_snoc (data : list DataItem) (item : DataItem) :
  entries (data ++ [item]) = step (entries data) item.
Proof. unfold entries. by rewrite foldl_snoc. Qed.

Lemma names_entries_app (pre post : list DataItem) :
  entries (pre ++ post) = foldl step (entries pre) post.
Proof. unfold entries. by rewrite foldl_app. Qed.

Lemma names_parse_None (dictEntry : jsstring) :
  parse dictEntry = None ↔ matchEntry dictEntry = None.
Proof. unfold parse. by destruct (matchEntry dictEntry). Qed.

Lemma names_step_skip (es : list DisplayEntry) (item : DataItem) :
  matchEntry item.1 = None → step es item = es.
Proof.
  destruct item as [dictEntry reason0]. simpl. intros H.
  apply names_parse_None in H. unfold step. by rewrite H.
Qed.

Lemma names_step_empty dictEntry reason0 k ka d :
  parse dictEntry = Some (k, ka, d) →
  step [] (dictEntry, reason0) = [{| names := [mkName k ka]; definition := d |}].
Proof. intros H. unfold step. by rewrite H. Qed.

Lemma names_step_merge (es0 : list DisplayEntry) prev dictEntry reason0 k ka d :
  parse dictEntry = Some (k, ka, d) →
  definition prev = d →
  step (es0 ++ [prev]) (dictEntry, reason0) = es0 ++ [pushName prev (mkName k ka)].
Proof.
  intros H Hd. unfold step. rewrite H, last_snoc.
  rewrite bool_decide_eq_true_2 by done. apply update_last_snoc.
Qed.

Lemma names_step_new (es0 : list DisplayEntry) prev dictEntry reason0 k ka d :
  parse dictEntry = Some (k, ka, d) →
  definition prev ≠ d →
  step (es0 ++ [prev]) (dictEntry, reason0)
  = (es0 ++ [prev]) ++ [{| names := [mkName k ka]; definition := d |}].
Proof.
  intros H Hd. unfold step. rewrite H, last_snoc.
  by rewrite bool_decide_eq_false_2.
Qed.

(** The definition of the last display entry is that of the last line
    that matched. *)
Lemma names_last_entry_key (data : list DataItem) :
  definition <$> last (entries data)
  = (λ m : ParsedEntry, m.2) <$> last (accepted data).
Proof.
  induction data as [|item data IH] using rev_ind; [done|].
  rewrite names_entries_snoc. unfold accepted in *. rewrite omap_app.
  destruct item as [dictEntry reason0]. cbn [omap list_omap fst].
  destruct (parse dictEntry) as [[[k ka] d]|] eqn:Hm.
  - rewrite last_snoc. cbn [fmap option_fmap option_map fst snd].
    destruct (last (entries data)) as [prev|] eqn:Hlast.
    + apply last_is_snoc in Hlast as [es0 Hes]. rewrite Hes.
      destruct (decide (definition prev = d)) as [Hd|Hne].
      * rewrite (names_step_merge _ _ _ _ _ _ _ Hm Hd), last_snoc. simpl. by rewrite Hd.
      * by rewrite (names_step_new _ _ _ _ _ _ _ Hm Hne), last_snoc.
    + apply last_None in Hlast. rewrite Hlast.
      by rewrite (names_step_empty _ _ _ _ _ Hm).
  - rewrite names_step_skip by (by apply names_parse_None). by rewrite app_nil_r.
Qed.

(** The loop body leaves every entry but the last one as it is, and
    never removes an entry. *)
Lemma names_step_frame (es : list DisplayEntry) (item : DataItem) (i : nat) :
  i < pred (length es) → step es item !! i = es !! i.
Proof.
  intros Hi. unfold step. destruct item as [dictEntry reason0].
  destruct (parse dictEntry) as [[[k ka] d]|]; [|done].
  destruct (last es) as [prev|]; [|apply lookup_app_l; lia].
  destruct (bool_decide _); [|apply lookup_app_l; lia].
  apply list_lookup_insert_ne. lia.
Qed.

Lemma names_step_length (es : list DisplayEntry) (item : DataItem) :
  length es ≤ length (step es item).
Proof.
  unfold step. destruct item as [dictEntry reason0].
  destruct (parse dictEntry) as [[[k ka] d]|]; [|done].
  destruct (last es) as [prev|]; [|rewrite length_app; lia].
  destruct (bool_decide _); [|rewrite length_app; lia].
  by rewrite length_insert.
Qed.

Lemma names_entries_length_mono (pre post : list DataItem) :
  length (entries pre) ≤ length (entries (pre ++ post)).
Proof.
  induction post as [|item post IH] using rev_ind.
  - by rewrite app_nil_r.
  - rewrite app_assoc, names_entries_snoc.
    etrans; [exact IH|apply names_step_length].
Qed.

Lemma names_entries_frame (pre post : list DataItem) (i : nat) :
  i < pred (length (entries pre)) →
  entries (pre ++ post) !! i = entries pre !! i.
Proof.
  intros Hi. induction post as [|item post IH] using rev_ind.
  - by rewrite app_nil_r.
  - rewrite app_assoc, names_entries_snoc, names_step_frame; [exact IH|].
    pose proof (names_entries_length_mono pre post). lia.
Qed.

End NamesFacts.

(** ** When a line is merged into the previous display entry *)

(** Both loops decide by the last display entry alone, and that entry
    carries the key of the last line that matched. *)
Lemma word_merge_cases (pre : list DataItem) (item : DataItem) k ka d :
  matchEntry item.1 = Some (k, ka, d) →
  ((∃ ka', last (Word.accepted pre) = Some (k, ka', d)) →
     ∃ es0 prev,
       Word.entries pre = es0 ++ [prev] ∧
       Word.entries (pre ++ [item])
       = es0 ++ [if truthy ka then Word.pushKana prev (default [] ka) else prev])
  ∧ (¬ (∃ ka', last (Word.accepted pre) = Some (k, ka', d)) →
     Word.entries (pre ++ [item])
     = Word.entries pre ++ [Word.newEntry k ka d item.2]).
Proof.
  destruct item as [dictEntry reason0]. cbn [fst snd]. intros Hm.
  rewrite WordFacts.word_entries_snoc.
  pose proof (WordFacts.word_last_entry_key pre) as Hkey.
  destruct (last (Word.entries pre)) as [prev|] eqn:Hlast.
  - apply last_is_snoc in Hlast as [es0 Hes]. rewrite Hes.
    destruct (last (Word.accepted pre)) as [[[k0 ka0] d0]|]; [|done].
    cbn in Hkey. injection Hkey as Hk Hd. split.
    + intros [ka' [= E1 _ E3]]. exists es0, prev. split; [done|].
      apply (WordFacts.word_step_merge _ _ _ _ _ _ _ Hm); congruence.
    + intros Hne. apply WordFacts.word_step_new; [done|].
      intros [Hk' Hd']. apply Hne. exists ka0. subst k0 d0. by rewrite Hk', Hd'.
  - apply last_None in Hlast. rewrite Hlast in *.
    destruct (last (Word.accepted pre)); [done|]. split.
    + by intros [ka' ?].
    + intros _. by apply WordFacts.word_step_empty.
Qed.

Lemma names_merge_cases (pre : list DataItem) (item : DataItem) k ka d :
  Names.parse item.1 = Some (k, ka, d) →
  ((∃ k' ka', last (Names.accepted pre) = Some (k', ka', d)) →
     ∃ es0 prev,
       Names.entries pre = es0 ++ [prev] ∧
       Names.entries (pre ++ [item])
       = es0 ++ [Names.pushName prev (Names.mkName k ka)])
  ∧ (¬ (∃ k' ka', last (Names.accepted pre) = Some (k', ka', d)) →
     Names.entries (pre ++ [item])
     = Names.entries pre
       ++ [{| Names.names := [Names.mkName k ka]; Names.definition := d |}]).
Proof.
  destruct item as [dictEntry reason0]. cbn [fst snd]. intros Hm.
  rewrite NamesFacts.names_entries_snoc.
  pose proof (NamesFacts.names_last_entry_key pre) as Hkey.
  destruct (last (Names.entries pre)) as [prev|] eqn:Hlast.
  - apply last_is_snoc in Hlast as [es0 Hes]. rewrite Hes.
    destruct (last (Names.accepted pre)) as [[[k0 ka0] d0]|]; [|done].
    cbn in Hkey. injection Hkey as Hd. split.
    + intros (k' & ka' & [= _ _ E3]). exists es0, prev. split; [done|].
      apply (NamesFacts.names_step_merge _ _ _ _ _ _ _ Hm); congruence.
    + intros Hne. apply NamesFacts.names_step_new; [done|].
      intros Hd'. apply Hne. exists k0, ka0. subst d0. by rewrite Hd'.
  - apply last_None in Hlast. rewrite Hlast in *.
    destruct (last (Names.accepted pre)); [done|]. split.
    + by intros (k' & ka' & ?).
    + intros _. by apply NamesFacts.names_step_empty.
Qed.

(** C1 (as amended).  For every sequence [pre] of lines and every next
    line that matches the pattern: in the word loop the line is collapsed
    into the last display entry exactly when its headword and its
    definition both equal those of the last line of [pre] that matched,
    and otherwise it starts a new entry; in the names loop the line is
    collapsed exactly when its definition (after the second match) equals
    that of the last line of [pre] that matched, whatever the headwords
    are, and otherwise it starts a new entry.  In particular two adjacent
    word lines with equal definitions and different headwords give two
    entries. *)
Theorem merge_iff_key_of_previous_line
    (pre : list DataItem) (item : DataItem)
    (k k' : jsstring) (ka ka' : option jsstring) (d d' : jsstring) :
  matchEntry item.1 = Some (k, ka, d) →
  Names.rematch (k, ka, d) = (k', ka', d') →
  (* renderWordEntries *)
  ((∃ x, last (Word.accepted pre) = Some (k, x, d)) →
     ∃ es0 prev,
       Word.entries pre = es0 ++ [prev] ∧
       Word.entries (pre ++ [item])
       = es0 ++ [if truthy ka then Word.pushKana prev (default [] ka) else prev])
  ∧ (¬ (∃ x, last (Word.accepted pre) = Some (k, x, d)) →
     Word.entries (pre ++ [item])
     = Word.entries pre ++ [Word.newEntry k ka d item.2])
  (* renderNamesEntries *)
  ∧ ((∃ y x, last (Names.accepted pre) = Some (y, x, d')) →
     ∃ es0 prev,
       Names.entries pre = es0 ++ [prev] ∧
       Names.entries (pre ++ [item])
       = es0 ++ [Names.pushName prev (Names.mkName k' ka')])
  ∧ (¬ (∃ y x, last (Names.accepted pre) = Some (y, x, d')) →
     Names.entries (pre ++ [item])
     = Names.entries pre
       ++ [{| Names.names := [Names.mkName k' ka']; Names.definition := d' |}])
  (* equal definitions, different headwords *)
  ∧ (∀ (item2 : DataItem) k2 ka2,
       matchEntry item2.1 = Some (k2, ka2, d) → k2 ≠ k →
       Word.entries [item; item2]
       = [Word.newEntry k ka d item.2; Word.newEntry k2 ka2 d item2.2]).
Proof.
  intros Hm Hre.
  assert (Names.parse item.1 = Some (k', ka', d')) as Hp.
  { unfold Names.parse. by rewrite Hm, <- Hre. }
  destruct (word_merge_cases pre item k ka d Hm) as [Hw1 Hw2].
  destruct (names_merge_cases pre item k' ka' d' Hp) as [Hn1 Hn2].
  repeat split; try done.
  intros item2 k2 ka2 Hm2 Hk2.
  destruct item as [l1 r1], item2 as [l2 r2]. cbn [fst snd] in *.
  unfold Word.entries. cbn [foldl].
  rewrite (WordFacts.word_step_empty _ _ _ _ _ Hm).
  apply (WordFacts.word_step_new [] _ _ _ _ _ _ Hm2).
  simpl. intros [? _]. by apply Hk2.
Qed.

Lemma merge_iff_key_of_previous_line_witness :
  matchEntry Samples.whaleCalf2
    = Some (Samples.koKujiraKanji, Some Samples.kokujira, u "(n) whale calf")
  ∧ Word.entries ([(Samples.whaleCalf1, None)] ++ [(Samples.whaleCalf2, None)])
    = Word.entries [(Samples.whaleCalf1, None)]
      ++ [Word.newEntry Samples.koKujiraKanji (Some Samples.kokujira)
            (u "(n) whale calf") None].
Proof.
  split; [vm_compute; reflexivity|].
  refine (proj1 (proj2 (merge_iff_key_of_previous_line
            [(Samples.whaleCalf1, None)] (Samples.whaleCalf2, None)
            Samples.koKujiraKanji Samples.koKujiraKanji
            (Some Samples.kokujira) (Some Samples.kokujira)
            (u "(n) whale calf") (u "(n) whale calf") _ _)) _).
  - vm_compute; reflexivity.
  - vm_compute; reflexivity.
  - intros [x Hx]. vm_compute in Hx. discriminate Hx.
Defined.

(** C1 (as stated) fails in the names loop: the second of these two lines
    has another headword than the first, and is collapsed into its
    entry all the same. *)
Lemma names_merge_with_other_headword :
  Names.accepted [(Samples.whaleCalf1, None)]
    = [(Samples.koKujira, Some Samples.kokujira, u "(n) whale calf")]
  ∧ Names.parse Samples.whaleCalf2
    = Some (Samples.koKujiraKanji, Some Samples.kokujira, u "(n) whale calf")
  ∧ Samples.koKujiraKanji ≠ Samples.koKujira
  ∧ Names.entries [(Samples.whaleCalf1, None); (Samples.whaleCalf2, None)]
    = [{| Names.names :=
            [{| Names.kanji := Some Samples.koKujira;
                Names.kana := Samples.kokujira |};
             {| Names.kanji := Some Samples.koKujiraKanji;
                Names.kana := Samples.kokujira |}];
          Names.definition := u "(n) whale calf" |}]
  ∧ ¬ (length (Names.entries [(Samples.whaleCalf1, None); (Samples.whaleCalf2, None)])
       = length (Names.entries [(Samples.whaleCalf1, None)])
       ↔ Samples.koKujiraKanji = Samples.koKujira
         ∧ u "(n) whale calf" = u "(n) whale calf").
Proof.
  repeat split; try (vm_compute; reflexivity); try discriminate.
  intros [Hmerged _]. by destruct Hmerged.
Qed.

(** C5.  In the names loop, a line that is not skipped is handled by
    comparing its definition (after the second match) with the definition
    of the last display entry only: when they are equal the new name is
    appended to the names of that entry, and otherwise (or when there is
    no entry yet) a new display entry with that single name is pushed.
    Neither the headword of the line nor the names of the entry take
    part in the test. *)
Theorem names_merge_rule
    (es0 : list Names.DisplayEntry) (prev : Names.DisplayEntry)
    (dictEntry : jsstring) (reason0 : option jsstring)
    (k : jsstring) (ka : option jsstring) (d : jsstring) :
  Names.parse dictEntry = Some (k, ka, d) →
  let name := Names.mkName k ka in
  let fresh := {| Names.names := [name]; Names.definition := d |} in
  (Names.definition prev = d →
     Names.step (es0 ++ [prev]) (dictEntry, reason0)
     = es0 ++ [{| Names.names := Names.names prev ++ [name];
                  Names.definition := Names.definition prev |}])
  ∧ (Names.definition prev ≠ d →
     Names.step (es0 ++ [prev]) (dictEntry, reason0) = es0 ++ [prev; fresh])
  ∧ Names.step [] (dictEntry, reason0) = [fresh].
Proof.
  intros Hp name fresh. repeat split.
  - intros Hd. by rewrite (NamesFacts.names_step_merge _ _ _ _ _ _ _ Hp Hd).
  - intros Hd. rewrite (NamesFacts.names_step_new _ _ _ _ _ _ _ Hp Hd).
    by rewrite <- app_assoc.
  - by apply NamesFacts.names_step_empty.
Qed.

Lemma names_merge_rule_witness :
  Names.parse Samples.whaleCalf2
    = Some (Samples.koKujiraKanji, Some Samples.kokujira, u "(n) whale calf")
  ∧ Names.step ([] ++ Names.entries [(Samples.whaleCalf1, None)])
      (Samples.whaleCalf2, None)
    = [] ++ [{| Names.names :=
                  [Names.mkName Samples.koKujira (Some Samples.kokujira)]
                  ++ [Names.mkName Samples.koKujiraKanji (Some Samples.kokujira)];
                Names.definition := u "(n) whale calf" |}].
Proof.
  split; [vm_compute; reflexivity|].
  refine (proj1 (names_merge_rule []
             {| Names.names := [Names.mkName Samples.koKujira (Some Samples.kokujira)];
                Names.definition := u "(n) whale calf" |}
             Samples.whaleCalf2 None _ _ _ _) _).
  - vm_compute; reflexivity.
  - reflexivity.
Defined.

(** C7.  A line that does not match the pattern is skipped by both loops:
    the display entries built from a sequence that holds such a line are
    those built from the sequence without it.  Both loops are total
    functions of the sequence, so there is no failure to report. *)
Theorem unparseable_line_is_skipped
    (pre post : list DataItem) (item : DataItem) :
  matchEntry item.1 = None →
  Word.entries (pre ++ item :: post) = Word.entries (pre ++ post)
  ∧ Names.entries (pre ++ item :: post) = Names.entries (pre ++ post).
Proof.
  intros Hm. split.
  - rewrite !WordFacts.word_entries_app. cbn [foldl].
    by rewrite WordFacts.word_step_skip.
  - rewrite !NamesFacts.names_entries_app. cbn [foldl].
    by rewrite NamesFacts.names_step_skip.
Qed.

Lemma unparseable_line_is_skipped_witness :
  matchEntry (u "no gloss here") = None
  ∧ Word.entries ([(Samples.whaleCalf1, None)]
                  ++ (u "no gloss here", None) :: [(Samples.easily, None)])
    = Word.entries ([(Samples.whaleCalf1, None)] ++ [(Samples.easily, None)])
  ∧ Names.entries ([(Samples.whaleCalf1, None)]
                   ++ (u "no gloss here", None) :: [(Samples.easily, None)])
    = Names.entries ([(Samples.whaleCalf1, None)] ++ [(Samples.easily, None)]).
Proof.
  split; [vm_compute; reflexivity|].
  apply (unparseable_line_is_skipped
           [(Samples.whaleCalf1, None)] [(Samples.easily, None)]
           (u "no gloss here", None)).
  vm_compute; reflexivity.
Defined.

(** C8 (as amended).  Both loops only ever touch the last display entry:
    whatever lines [post] follow, every entry that is not the last one
    after [pre] is the same after [pre ++ post].  Merging is therefore
    decided between neighbours only: for the lines [A; A; B; A], where
    [B] does not merge with [A] under the test of the loop (another
    headword or definition in the word loop, another definition in the
    names loop), there are three display entries, the merged [A], [B],
    and [A] again.  In the names loop a [B] with the definition of [A]
    is merged whatever its headword is, and the four lines give one
    entry with four names. *)
Theorem merge_touches_last_entry_only
    (pre post : list DataItem) (i : nat) (A B : DataItem)
    (k kb : jsstring) (ka kab : option jsstring) (d db : jsstring)
    (k' kb' : jsstring) (ka' kab' : option jsstring) (d' db' : jsstring) :
  matchEntry A.1 = Some (k, ka, d) →
  matchEntry B.1 = Some (kb, kab, db) →
  Names.rematch (k, ka, d) = (k', ka', d') →
  Names.rematch (kb, kab, db) = (kb', kab', db') →
  (i < pred (length (Word.entries pre)) →
     Word.entries (pre ++ post) !! i = Word.entries pre !! i)
  ∧ (i < pred (length (Names.entries pre)) →
     Names.entries (pre ++ post) !! i = Names.entries pre !! i)
  ∧ (¬ (kb = k ∧ db = d) →
     Word.entries [A; A; B; A]
     = [ (if truthy ka
          then Word.pushKana (Word.newEntry k ka d A.2) (default [] ka)
          else Word.newEntry k ka d A.2);
         Word.newEntry kb kab db B.2;
         Word.newEntry k ka d A.2 ])
  ∧ (db' ≠ d' →
     Names.entries [A; A; B; A]
     = [ {| Names.names := [Names.mkName k' ka'; Names.mkName k' ka'];
            Names.definition := d' |};
         {| Names.names := [Names.mkName kb' kab']; Names.definition := db' |};
         {| Names.names := [Names.mkName k' ka']; Names.definition := d' |} ])
  ∧ (db' = d' →
     Names.entries [A; A; B; A]
     = [ {| Names.names := [Names.mkName k' ka'; Names.mkName k' ka';
                            Names.mkName kb' kab'; Names.mkName k' ka'];
            Names.definition := d' |} ]).
Proof.
  intros HA HB HA' HB'.
  assert (Names.parse A.1 = Some (k', ka', d')) as HpA
    by (unfold Names.parse; by rewrite HA, <- HA').
  assert (Names.parse B.1 = Some (kb', kab', db')) as HpB
    by (unfold Names.parse; by rewrite HB, <- HB').
  destruct A as [lA rA], B as [lB rB]. cbn [fst snd] in *.
  split; [apply WordFacts.word_entries_frame|].
  split; [apply NamesFacts.names_entries_frame|].
  split; [|split].
  - intros Hne. unfold Word.entries. cbn [foldl].
    rewrite (WordFacts.word_step_empty _ _ _ _ _ HA).
    rewrite_snoc (WordFacts.word_step_merge [] (Word.newEntry k ka d rA)
                    _ rA _ _ _ HA eq_refl eq_refl).
    set (merged := if truthy ka then _ else _).
    assert (Word.kanjiKana merged = k ∧ Word.definition merged = d) as [Hk Hd]
      by (subst merged; by destruct (truthy ka)).
    rewrite_snoc (WordFacts.word_step_new [] merged _ rB _ _ _ HB).
    + apply (WordFacts.word_step_new [merged] _ _ _ _ _ _ HA).
      simpl. intros [E1 E2]. by apply Hne.
    + rewrite Hk, Hd. intros [E1 E2]. by apply Hne.
  - intros Hne. unfold Names.entries. cbn [foldl].
    rewrite (NamesFacts.names_step_empty _ _ _ _ _ HpA).
    rewrite_snoc (NamesFacts.names_step_merge []
                    {| Names.names := [Names.mkName k' ka']; Names.definition := d' |}
                    _ rA _ _ _ HpA eq_refl).
    set (merged := Names.pushName _ _).
    rewrite_snoc (NamesFacts.names_step_new [] merged _ rB _ _ _ HpB
                    (λ H : d' = db', Hne (eq_sym H))).
    apply (NamesFacts.names_step_new [merged] _ _ _ _ _ _ HpA). exact Hne.
  - intros Heq. unfold Names.entries. cbn [foldl].
    rewrite (NamesFacts.names_step_empty _ _ _ _ _ HpA).
    rewrite_snoc (NamesFacts.names_step_merge []
                    {| Names.names := [Names.mkName k' ka']; Names.definition := d' |}
                    _ rA _ _ _ HpA eq_refl).
    set (two := Names.pushName _ _).
    rewrite_snoc (NamesFacts.names_step_merge [] two _ rB _ _ _ HpB (eq_sym Heq)).
    set (three := Names.pushName _ _).
    apply (NamesFacts.names_step_merge [] three _ rA _ _ _ HpA eq_refl).
Qed.

Lemma merge_touches_last_entry_only_witness :
  matchEntry (u "A [x] /g/") = Some (u "A", Some (u "x"), u "g")
  ∧ matchEntry (u "B [z] /h/") = Some (u "B", Some (u "z"), u "h")
  ∧ Word.entries [(u "A [x] /g/", None); (u "A [x] /g/", None);
                  (u "B [z] /h/", None); (u "A [x] /g/", None)]
    = [ Word.pushKana (Word.newEntry (u "A") (Some (u "x")) (u "g") None) (u "x");
        Word.newEntry (u "B") (Some (u "z")) (u "h") None;
        Word.newEntry (u "A") (Some (u "x")) (u "g") None ]
  ∧ length (Names.entries [(u "A [x] /g/", None); (u "A [x] /g/", None);
                           (u "B [z] /h/", None); (u "A [x] /g/", None)]) = 3.
Proof.
  split; [vm_compute; reflexivity|].
  split; [vm_compute; reflexivity|].
  pose proof (merge_touches_last_entry_only [] [] 0
                (u "A [x] /g/", None) (u "B [z] /h/", None)
                (u "A") (u "B") (Some (u "x")) (Some (u "z")) (u "g") (u "h")
                (u "A") (u "B") (Some (u "x")) (Some (u "z")) (u "g") (u "h")
                eq_refl eq_refl eq_refl eq_refl) as (_ & _ & Hw & Hn & _).
  split.
  - apply Hw. intros [_ Heq]. discriminate Heq.
  - refine (f_equal length (Hn _)). intros Heq. discriminate Heq.
Defined.

(** C8 (as stated) fails in the names loop: in [A; A; B; A] with the two
    whale-calf lines, [B] has another headword than [A] and the same
    definition, the names loop merges all four lines into one entry, and
    the word loop gives three. *)
Lemma names_merge_across_other_headword :
  Names.parse Samples.whaleCalf1
    = Some (Samples.koKujira, Some Samples.kokujira, u "(n) whale calf")
  ∧ Names.parse Samples.whaleCalf2
    = Some (Samples.koKujiraKanji, Some Samples.kokujira, u "(n) whale calf")
  ∧ Samples.koKujiraKanji ≠ Samples.koKujira
  ∧ Names.entries [(Samples.whaleCalf1, None); (Samples.whaleCalf1, None);
                   (Samples.whaleCalf2, None); (Samples.whaleCalf1, None)]
    = [{| Names.names :=
            [{| Names.kanji := Some Samples.koKujira;
                Names.kana := Samples.kokujira |};
             {| Names.kanji := Some Samples.koKujira;
                Names.kana := Samples.kokujira |};
             {| Names.kanji := Some Samples.koKujiraKanji;
                Names.kana := Samples.kokujira |};
             {| Names.kanji := Some Samples.koKujira;
                Names.kana := Samples.kokujira |}];
          Names.definition := u "(n) whale calf" |}]
  ∧ length (Names.entries [(Samples.whaleCalf1, None); (Samples.whaleCalf1, None);
                           (Samples.whaleCalf2, None); (Samples.whaleCalf1, None)])
    ≠ 3
  ∧ length (Word.entries [(Samples.whaleCalf1, None); (Samples.whaleCalf1, None);
                          (Samples.whaleCalf2, None); (Samples.whaleCalf1, None)])
    = 3.
Proof.
  repeat split; try (vm_compute; reflexivity); discriminate.
Qed.

(** ** The selected entry *)

Lemma getSelectedIndex_active (options : PopupOptions) (i n : Z) :
  copyMode options = Some true → copyIndex options = Some i → n ≠ 0%Z →
  getSelectedIndex options n = Z.rem i n.
Proof.
  intros Hm Hi Hn. unfold getSelectedIndex. rewrite Hm, Hi.
  rewrite bool_decide_eq_true_2 by eauto.
  by apply Z.eqb_neq in Hn as ->.
Qed.

Lemma getSelectedIndex_guarded (options : PopupOptions) (n : Z) :
  default false (copyMode options) = false ∨ copyIndex options = None ∨ n = 0%Z →
  getSelectedIndex options n = (-1)%Z.
Proof.
  unfold getSelectedIndex. intros [Hm|[Hi|Hn]].
  - by rewrite Hm.
  - rewrite Hi. rewrite bool_decide_eq_false_2 by (by intros [? ?]).
    by rewrite andb_false_r.
  - subst n. by rewrite andb_false_r.
Qed.

(** C2 (as amended).  With copy mode on, a defined integer [copyIndex] and
    [n > 0] entries, [getSelectedIndex] is the remainder of [copyIndex] by
    [n] that has the sign of [copyIndex]: for [copyIndex >= 0] it is
    [copyIndex mod n] and lies in [0, n), so that
    [getSelectedIndex (true, 5) 3 = 2]; for [copyIndex < 0] it lies in
    (-n, 0] instead. *)
Theorem selected_index_is_truncated_remainder
    (options : PopupOptions) (i n : Z) :
  copyMode options = Some true → copyIndex options = Some i → (0 < n)%Z →
  getSelectedIndex options n = Z.rem i n
  ∧ ((0 ≤ i)%Z →
       getSelectedIndex options n = (i mod n)%Z
       ∧ (0 ≤ getSelectedIndex options n < n)%Z)
  ∧ ((i < 0)%Z → (- n < getSelectedIndex options n ≤ 0)%Z)
  ∧ getSelectedIndex (Samples.copyAt 5) 3 = 2%Z.
Proof.
  intros Hm Hi Hn.
  rewrite (getSelectedIndex_active options i n Hm Hi) by lia.
  repeat split.
  - rewrite Z.rem_mod_nonneg by lia. done.
  - apply Z.rem_bound_pos; lia.
  - apply Z.rem_bound_pos; lia.
  - pose proof (Z.rem_bound_pos_neg i n ltac:(lia) ltac:(lia)). lia.
  - pose proof (Z.rem_bound_pos_neg i n ltac:(lia) ltac:(lia)). lia.
Qed.

Lemma selected_index_is_truncated_remainder_witness :
  (0 < 3)%Z
  ∧ getSelectedIndex (Samples.copyAt 7) 3 = Z.rem 7 3.
Proof.
  split; [lia|].
  refine (proj1 (selected_index_is_truncated_remainder
            (Samples.copyAt 7) 7 3 eq_refl eq_refl _)).
  lia.
Defined.

(** C2 (as stated) fails for a negative [copyIndex]: with three entries
    and [copyIndex = -1] the result is -1, which is outside [0, 3) and is
    not the non-negative modulo 2. *)
Lemma selected_index_of_minus_one :
  getSelectedIndex (Samples.copyAt (-1)) 3 = (-1)%Z
  ∧ ¬ (0 ≤ getSelectedIndex (Samples.copyAt (-1)) 3 < 3)%Z
  ∧ getSelectedIndex (Samples.copyAt (-1)) 3 ≠ ((-1) mod 3)%Z.
Proof.
  split; [reflexivity|]. split.
  - intros [Hlo _]. vm_compute in Hlo. by apply Hlo.
  - intros Heq. vm_compute in Heq. discriminate Heq.
Qed.

(** C3.  [getSelectedIndex] is -1 whenever copy mode is off (false or
    not set), or [copyIndex] is undefined, or there is no entry, whatever
    the other arguments are; and then no entry element of either list
    gets the class [-selected]. *)
Theorem no_selection_when_guarded (options : PopupOptions) (n : Z) :
  default false (copyMode options) = false ∨ copyIndex options = None ∨ n = 0%Z →
  getSelectedIndex options n = (-1)%Z
  ∧ ∀ (A : Type) (entries : list A),
      Z.of_nat (length entries) = n →
      Forall (λ classes, "-selected"%string ∉ classes) (entryClasses options entries).
Proof.
  intros Hguard. split; [by apply getSelectedIndex_guarded|].
  intros A entries Hlen. apply Forall_lookup. intros index classes.
  unfold entryClasses. rewrite list_lookup_imap.
  rewrite Hlen, (getSelectedIndex_guarded options n Hguard).
  destruct (entries !! index); [|done]. intros [= <-].
  rewrite bool_decide_eq_false_2 by lia.
  intros Hin. apply list_elem_of_singleton in Hin. discriminate Hin.
Qed.

Lemma no_selection_when_guarded_witness :
  (default false (copyMode (Samples.copyAt 1)) = false
   ∨ copyIndex (Samples.copyAt 1) = None ∨ 0%Z = 0%Z)
  ∧ getSelectedIndex (Samples.copyAt 1) 0 = (-1)%Z.
Proof.
  split; [right; right; reflexivity|].
  refine (proj1 (no_selection_when_guarded (Samples.copyAt 1) 0 _)).
  right; right; reflexivity.
Defined.

(** C9.  The names table gets the class [-multicol] exactly when there
    are more than four display entries, that is five or more. *)
Theorem multicol_iff_more_than_four (entries : list Names.DisplayEntry) :
  ("-multicol"%string ∈ Names.tableClasses entries ↔ 4 < length entries)
  ∧ ("-multicol"%string ∈ Names.tableClasses entries ↔ 5 ≤ length entries).
Proof.
  assert ("-multicol"%string ∈ Names.tableClasses entries ↔ 4 < length entries) as Hiff.
  { unfold Names.tableClasses. case_bool_decide as Hlen.
    - split; [done|]. intros _. apply list_elem_of_In. simpl. auto.
    - split; [|done]. intros Hin.
      apply list_elem_of_singleton in Hin. discriminate Hin. }
  split; [exact Hiff|]. rewrite Hiff. lia.
Qed.

(** ** What the pattern captures *)

(** C4 (as amended).  For a line [H [R] /G/] (a non-empty headword [H]
    without white space, white space, a bracketed reading [R] without a
    closing bracket or line terminator, optional white space, and between
    slashes a non-empty [G] without line terminator, which may hold
    slashes itself) the match gives headword [H], reading [R] and
    definition [G]: the definition runs up to the last slash of the line,
    which is left out, and whatever follows that slash is ignored.  So
    ["H [R] /G1/G2/"] gives the definition ["G1/G2"]. *)
Theorem parse_well_formed_line (H ws1 R ws2 G T : jsstring) :
  H ≠ [] → Forall (λ c, CharClass.space c = false) H →
  ws1 ≠ [] → Forall (λ c, CharClass.space c = true) ws1 →
  Forall (λ c, CharClass.dot c = true ∧ c ≠ chRBracket) R →
  Forall (λ c, CharClass.space c = true) ws2 →
  G ≠ [] → Forall (λ c, CharClass.dot c = true) G →
  Forall (λ c, c ≠ chSlash) T →
  matchEntry (H ++ ws1 ++ chLBracket :: R ++ chRBracket :: ws2 ++
              chSlash :: G ++ chSlash :: T)
  = Some (H, Some R, G)
  ∧ matchEntry (u "H [R] /G1/G2/") = Some (u "H", Some (u "R"), u "G1/G2").
Proof.
  intros. split; [by apply matchEntry_bracketed|].
  vm_compute. reflexivity.
Qed.

Lemma parse_well_formed_line_witness :
  matchEntry (Samples.koKujira ++ u " " ++ chLBracket :: Samples.kokujira
              ++ chRBracket :: u " " ++ chSlash :: u "(n) whale/calf"
              ++ chSlash :: u " ; rest")
  = Some (Samples.koKujira, Some Samples.kokujira, u "(n) whale/calf").
Proof.
  refine (proj1 (parse_well_formed_line Samples.koKujira (u " ") Samples.kokujira
                   (u " ") (u "(n) whale/calf") (u " ; rest") _ _ _ _ _ _ _ _ _)).
  - discriminate.
  - repeat constructor.
  - discriminate.
  - repeat constructor.
  - repeat constructor; discriminate.
  - repeat constructor.
  - discriminate.
  - repeat constructor.
  - repeat constructor; discriminate.
Defined.

(** C4 (as stated) gives the definition of ["H [R] /G1/G2/"] as
    ["G1/G2/"]; the closing slash is not part of what the pattern
    captures. *)
Lemma gloss_has_no_closing_slash :
  matchEntry (u "H [R] /G1/G2/") = Some (u "H", Some (u "R"), u "G1/G2")
  ∧ matchEntry (u "H [R] /G1/G2/") ≠ Some (u "H", Some (u "R"), u "G1/G2/").
Proof.
  split; [vm_compute; reflexivity|].
  intros Heq. vm_compute in Heq. discriminate Heq.
Qed.

(** ** The second match of the names loop *)

(** C6 (as amended).  In the names loop, when the definition captured
    from a line matches the pattern itself, headword, reading and
    definition are those of that second match, and when it does not they
    stay those of the line.  The second match is not repeated on its own
    definition: [a [b] /c [d] /e [f] /g///] is shown as [c], [d] with the
    definition [e [f] /g/], which would match once more.  The line
    [あか組４ [あかぐみふぉー] /あか組４ [あかぐみフォー] /Akagumi Four (h)//]
    (two closing slashes) gives one entry with the name
    (あか組４, あかぐみフォー) and the definition [Akagumi Four (h)]; with
    one closing slash the definition captured from the line does not
    match again, and the entry has the name (あか組４, あかぐみふぉー). *)
Theorem embedded_line_replaces_outer_once
    (dictEntry : jsstring) (reason0 : option jsstring)
    (k : jsstring) (ka : option jsstring) (d : jsstring) :
  matchEntry dictEntry = Some (k, ka, d) →
  (∀ k' ka' d',
     matchEntry d = Some (k', ka', d') →
     Names.parse dictEntry = Some (k', ka', d')
     ∧ Names.entries [(dictEntry, reason0)]
       = [{| Names.names := [Names.mkName k' ka']; Names.definition := d' |}])
  ∧ (matchEntry d = None →
     Names.parse dictEntry = Some (k, ka, d)
     ∧ Names.entries [(dictEntry, reason0)]
       = [{| Names.names := [Names.mkName k ka]; Names.definition := d |}])
  ∧ Names.parse Samples.nestedTwice = Some (u "c", Some (u "d"), u "e [f] /g/")
  ∧ matchEntry (u "e [f] /g/") = Some (u "e", Some (u "f"), u "g")
  ∧ Names.entries [(Samples.akagumiOuter, None)]
    = [{| Names.names :=
            [{| Names.kanji := Some Samples.akagumi4;
                Names.kana := Samples.akagumiFoKata |}];
          Names.definition := u "Akagumi Four (h)" |}]
  ∧ Names.entries [(Samples.akagumiOneSlash, None)]
    = [{| Names.names :=
            [{| Names.kanji := Some Samples.akagumi4;
                Names.kana := Samples.akagumiFoHira |}];
          Names.definition :=
            Samples.akagumi4 ++ u " [" ++ Samples.akagumiFoKata
            ++ u "] /Akagumi Four (h)" |}].
Proof.
  intros Hm. split; [|split].
  - intros k' ka' d' Hre.
    assert (Names.parse dictEntry = Some (k', ka', d')) as Hp
      by (unfold Names.parse, Names.rematch; rewrite Hm; simpl; by rewrite Hre).
    split; [done|]. by apply NamesFacts.names_step_empty.
  - intros Hre.
    assert (Names.parse dictEntry = Some (k, ka, d)) as Hp
      by (unfold Names.parse, Names.rematch; rewrite Hm; simpl; by rewrite Hre).
    split; [done|]. by apply NamesFacts.names_step_empty.
  - repeat split; vm_compute; reflexivity.
Qed.

Lemma embedded_line_replaces_outer_once_witness :
  matchEntry Samples.akagumiOuter
    = Some (Samples.akagumi4, Some Samples.akagumiFoHira, Samples.akagumiInner)
  ∧ matchEntry Samples.akagumiInner
    = Some (Samples.akagumi4, Some Samples.akagumiFoKata, u "Akagumi Four (h)")
  ∧ Names.parse Samples.akagumiOuter
    = Some (Samples.akagumi4, Some Samples.akagumiFoKata, u "Akagumi Four (h)").
Proof.
  split; [vm_compute; reflexivity|].
  split; [vm_compute; reflexivity|].
  refine (proj1 (proj1 (embedded_line_replaces_outer_once
            Samples.akagumiOuter None
            Samples.akagumi4 (Some Samples.akagumiFoHira) Samples.akagumiInner _)
            Samples.akagumi4 (Some Samples.akagumiFoKata) (u "Akagumi Four (h)") _)).
  - vm_compute; reflexivity.
  - vm_compute; reflexivity.
Defined.

(** C6 (as stated) fails on its own line, which ends in one slash: the
    definition captured from it has no closing slash left, so it does not
    match the pattern, and the entry keeps the outer reading あかぐみふぉー
    and the whole embedded text as its definition. *)
Lemma one_slash_line_keeps_outer_reading :
  Samples.akagumiOneSlash
    = Samples.akagumi4 ++ u " [" ++ Samples.akagumiFoHira ++ u "] /"
      ++ Samples.akagumi4 ++ u " [" ++ Samples.akagumiFoKata
      ++ u "] /Akagumi Four (h)/"
  ∧ Names.entries [(Samples.akagumiOneSlash, None)]
    = [{| Names.names :=
            [{| Names.kanji := Some Samples.akagumi4;
                Names.kana := Samples.akagumiFoHira |}];
          Names.definition :=
            Samples.akagumi4 ++ u " [" ++ Samples.akagumiFoKata
            ++ u "] /Akagumi Four (h)" |}]
  ∧ Names.entries [(Samples.akagumiOneSlash, None)]
    ≠ [{| Names.names :=
            [{| Names.kanji := Some Samples.akagumi4;
                Names.kana := Samples.akagumiFoKata |}];
          Names.definition := u "Akagumi Four (h)/" |}].
Proof.
  split; [vm_compute; reflexivity|].
  split; [vm_compute; reflexivity|].
  intros Heq. vm_compute in Heq. discriminate Heq.
Qed.

(** ** Empty brackets *)

Lemma mkName_falsy (k : jsstring) (ka : option jsstring) :
  truthy ka = false →
  Names.mkName k ka = {| Names.kanji := None; Names.kana := k |}.
Proof. intros Hka. unfold Names.mkName. by rewrite Hka. Qed.

(** Both loops look at the reading through its truthiness only when it
    is falsy. *)
Lemma word_step_falsy_reading (es : list Word.DisplayEntry) (l1 l2 : jsstring)
    (reason0 : option jsstring) (k : jsstring) (ka1 ka2 : option jsstring) (d : jsstring) :
  matchEntry l1 = Some (k, ka1, d) → matchEntry l2 = Some (k, ka2, d) →
  truthy ka1 = false → truthy ka2 = false →
  Word.step es (l1, reason0) = Word.step es (l2, reason0).
Proof.
  intros H1 H2 Hf1 Hf2. unfold Word.step, Word.newEntry.
  by rewrite H1, H2, Hf1, Hf2.
Qed.

Lemma names_step_falsy_reading (es : list Names.DisplayEntry) (l1 l2 : jsstring)
    (reason0 : option jsstring) (k : jsstring) (ka1 ka2 : option jsstring) (d : jsstring) :
  matchEntry l1 = Some (k, ka1, d) → matchEntry l2 = Some (k, ka2, d) →
  truthy ka1 = false → truthy ka2 = false →
  Names.step es (l1, reason0) = Names.step es (l2, reason0).
Proof.
  intros H1 H2 Hf1 Hf2. unfold Names.step, Names.parse, Names.rematch.
  rewrite H1, H2. simpl.
  destruct (matchEntry d) as [[[k' ka'] d']|]; [done|].
  by rewrite (mkName_falsy k ka1 Hf1), (mkName_falsy k ka2 Hf2).
Qed.

(** C10.  A line with empty brackets, [H [] /G/], matches with the empty
    string as its reading, a line without brackets, [H /G/], with an
    undefined reading, and both loops do the same with the two lines: the
    word loop appends no reading, neither to a new entry nor to the entry
    the line is merged into, and the names loop builds the name with
    [kanji] undefined and [kana] set to the headword. *)
Theorem empty_brackets_as_no_brackets (H G : jsstring) :
  H ≠ [] → Forall (λ c, CharClass.space c = false) H →
  G ≠ [] → Forall (λ c, CharClass.dot c = true) G →
  let withEmpty := H ++ u " [] /" ++ G ++ u "/" in
  let without := H ++ u " /" ++ G ++ u "/" in
  matchEntry withEmpty = Some (H, Some [], G)
  ∧ matchEntry without = Some (H, None, G)
  (* the same step in both loops *)
  ∧ (∀ es reason0,
       Word.step es (withEmpty, reason0) = Word.step es (without, reason0))
  ∧ (∀ es reason0,
       Names.step es (withEmpty, reason0) = Names.step es (without, reason0))
  (* renderWordEntries: a new entry has no reading *)
  ∧ (∀ reason0,
       Word.step [] (withEmpty, reason0)
       = [{| Word.kanjiKana := H; Word.kana := [];
             Word.definition := G; Word.reason := reason0 |}])
  ∧ (∀ es0 prev reason0,
       ¬ (Word.kanjiKana prev = H ∧ Word.definition prev = G) →
       Word.step (es0 ++ [prev]) (withEmpty, reason0)
       = es0 ++ [prev; {| Word.kanjiKana := H; Word.kana := [];
                          Word.definition := G; Word.reason := reason0 |}])
  (* renderWordEntries: merging adds no reading *)
  ∧ (∀ es0 prev reason0,
       Word.kanjiKana prev = H → Word.definition prev = G →
       Word.step (es0 ++ [prev]) (withEmpty, reason0) = es0 ++ [prev])
  (* renderNamesEntries: the headword is shown as the reading *)
  ∧ Names.mkName H (Some []) = {| Names.kanji := None; Names.kana := H |}
  ∧ (matchEntry G = None →
     ∀ reason0,
       Names.step [] (withEmpty, reason0)
       = [{| Names.names := [{| Names.kanji := None; Names.kana := H |}];
             Names.definition := G |}]).
Proof.
  intros HH HHns HG HGdot withEmpty without.
  assert (matchEntry withEmpty = Some (H, Some [], G)) as Hm1.
  { apply (matchEntry_bracketed H (u " ") [] (u " ") G []); try done.
    - by repeat constructor.
    - by repeat constructor. }
  assert (matchEntry without = Some (H, None, G)) as Hm2.
  { apply (matchEntry_unbracketed H (u " ") G []); try done.
    by repeat constructor. }
  split; [exact Hm1|]. split; [exact Hm2|].
  split; [intros; by eapply word_step_falsy_reading|].
  split; [intros; by eapply names_step_falsy_reading|].
  split; [intros; by rewrite (WordFacts.word_step_empty _ _ _ _ _ Hm1)|].
  split.
  { intros es0 prev reason0 Hne.
    rewrite (WordFacts.word_step_new _ _ _ _ _ _ _ Hm1 Hne).
    by rewrite <- app_assoc. }
  split.
  { intros es0 prev reason0 Hk Hd.
    by rewrite (WordFacts.word_step_merge _ _ _ _ _ _ _ Hm1 Hk Hd). }
  split; [done|].
  intros Hre reason0.
  refine (eq_trans (NamesFacts.names_step_empty withEmpty reason0 H (Some []) G _) eq_refl).
  unfold Names.parse, Names.rematch. rewrite Hm1. simpl. by rewrite Hre.
Qed.

Lemma empty_brackets_as_no_brackets_witness :
  matchEntry (Samples.assari ++ u " [] /" ++ u "easily/readily" ++ u "/")
    = Some (Samples.assari, Some [], u "easily/readily")
  ∧ matchEntry (Samples.assari ++ u " /" ++ u "easily/readily" ++ u "/")
    = Some (Samples.assari, None, u "easily/readily").
Proof.
  pose proof (empty_brackets_as_no_brackets Samples.assari (u "easily/readily")) as Hthm.
  cbv zeta in Hthm.
  refine ((λ Hall, conj (proj1 Hall) (proj1 (proj2 Hall))) (Hthm _ _ _ _)).
  - discriminate.
  - repeat constructor.
  - discriminate.
  - repeat constructor.
Defined.


(** * Further properties of the code *)

(** ** What a match says about the line *)

Section Inversion.

Context {R : Type}.
Implicit Types (p : char → bool) (s : jsstring) (k : jsstring → option R).

(** A quantifier that succeeds has taken a run of at least [min]
    characters of its class, and handed the rest to the continuation. *)
Lemma repeatGreedy_inv p min s k x :
  repeatGreedy p min s k = Some x →
  ∃ pre s', s = pre ++ s' ∧ min ≤ length pre
            ∧ Forall (λ c, p c = true) pre ∧ k s' = Some x.
Proof.
  revert min. induction s as [|c s IH]; intros min; simpl.
  - destruct min; [|done]. intros Hk. exists [], []. by repeat split.
  - assert (match min with 0 => k (c :: s) | S _ => None end = Some x →
            ∃ pre s', c :: s = pre ++ s' ∧ min ≤ length pre
                      ∧ Forall (λ c, p c = true) pre ∧ k s' = Some x) as Hstop.
    { destruct min; [|done]. intros Hk. exists [], (c :: s). by repeat split. }
    destruct (p c) eqn:Hc; [|exact Hstop].
    destruct (repeatGreedy p (pred min) s k) eqn:Hrec; [|exact Hstop].
    intros [= <-]. apply IH in Hrec as (pre & s' & -> & Hmin & Hpre & Hk).
    exists (c :: pre), s'. repeat split; [simpl; lia|by constructor|done].
Qed.

Lemma repeatLazy_inv p min s k x :
  repeatLazy p min s k = Some x →
  ∃ pre s', s = pre ++ s' ∧ min ≤ length pre
            ∧ Forall (λ c, p c = true) pre ∧ k s' = Some x.
Proof.
  revert min. induction s as [|c s IH]; intros min; simpl.
  - destruct min; [|done]. destruct (k []) eqn:Hk; [|done].
    intros [= <-]. exists [], []. by repeat split.
  - assert ((if p c then repeatLazy p (pred min) s k else None) = Some x →
            ∃ pre s', c :: s = pre ++ s' ∧ min ≤ length pre
                      ∧ Forall (λ c, p c = true) pre ∧ k s' = Some x) as Hmore.
    { destruct (p c) eqn:Hc; [|done]. intros Hrec.
      apply IH in Hrec as (pre & s' & -> & Hmin & Hpre & Hk).
      exists (c :: pre), s'. repeat split; [simpl; lia|by constructor|done]. }
    destruct min as [|m]; [|exact Hmore].
    destruct (k (c :: s)) eqn:Hk; [|exact Hmore].
    intros [= <-]. exists [], (c :: s). by repeat split.
Qed.

(** A greedy quantifier fails only when the continuation refuses every
    run it could have taken. *)
Lemma repeatGreedy_None_inv p min s k :
  repeatGreedy p min s k = None →
  ∀ pre t, s = pre ++ t → Forall (λ c, p c = true) pre → min ≤ length pre →
           k t = None.
Proof.
  revert min. induction s as [|c s IH]; intros min; simpl.
  - intros Hstop pre t Hs _ Hmin.
    symmetry in Hs. apply app_eq_nil in Hs as [-> ->].
    simpl in Hmin. by assert (min = 0) as -> by lia.
  - intros Hm pre t Hs Hpre Hmin. destruct pre as [|c' pre].
    + simpl in Hs, Hmin. subst t. assert (min = 0) as -> by lia.
      destruct (p c); [|done].
      by destruct (repeatGreedy p (pred 0) s k).
    + injection Hs as <- ->. inversion Hpre as [|? ? Hc Hpre']; subst.
      rewrite Hc in Hm.
      destruct (repeatGreedy p (pred min) (pre ++ t) k) eqn:Hrec; [done|].
      eapply IH; [exact Hrec|done|done|simpl in Hmin; lia].
Qed.

(** The run a greedy quantifier settles on is the longest one that the
    continuation accepts. *)
Lemma repeatGreedy_longest p min s k x :
  repeatGreedy p min s k = Some x →
  ∃ pre s', s = pre ++ s' ∧ min ≤ length pre
            ∧ Forall (λ c, p c = true) pre ∧ k s' = Some x
            ∧ ∀ e t, s' = e ++ t → e ≠ [] → Forall (λ c, p c = true) e →
                     k t = None.
Proof.
  revert min. induction s as [|c s IH]; intros min; simpl.
  - destruct min; [|done]. intros Hk. exists [], []. repeat split; try done.
    intros e t He Hne. symmetry in He. by apply app_eq_nil in He as [-> _].
  - destruct (p c) eqn:Hc.
    + destruct (repeatGreedy p (pred min) s k) eqn:Hrec.
      * intros [= <-].
        apply IH in Hrec as (pre & s' & -> & Hmin & Hpre & Hk & Hmax).
        exists (c :: pre), s'. repeat split; [simpl; lia|by constructor|done|done].
      * destruct min; [|done]. intros Hk. exists [], (c :: s).
        repeat split; try done.
        intros e t He Hne He'. destruct e as [|c' e]; [done|].
        injection He as <- ->. inversion He'; subst.
        eapply repeatGreedy_None_inv; [exact Hrec|done|done|simpl; lia].
    + destruct min; [|done]. intros Hk. exists [], (c :: s).
      repeat split; try done.
      intros e t He Hne He'. destruct e as [|c' e]; [done|].
      injection He as <- ->. inversion He' as [|? ? Hc' _]; subst. congruence.
Qed.

End Inversion.

Lemma nonempty_of_length {A : Type} (l : list A) : 1 ≤ length l → l ≠ [].
Proof. destruct l; [simpl; lia|done]. Qed.

(** [\s*\/(.+)\/], read backwards. *)
Lemma match_spaces_gloss_inv (s : jsstring) (caps caps' : Captures) :
  matchRe (Seq (Repeat true 0 CharClass.space) glossPart) s caps
    (λ _ c, Some c) = Some caps' →
  ∃ ws d T,
    s = ws ++ chSlash :: d ++ chSlash :: T
    ∧ Forall (λ c, CharClass.space c = true) ws
    ∧ d ≠ [] ∧ Forall (λ c, CharClass.dot c = true) d
    ∧ (∀ T1 T2, T = T1 ++ chSlash :: T2 →
                ¬ Forall (λ c, CharClass.dot c = true) T1)
    ∧ caps' = <[2 := Some d]> caps.
Proof.
  unfold glossPart. cbn [matchRe]. intros Hm.
  apply repeatGreedy_inv in Hm as (ws & s1 & -> & _ & Hws & Hm).
  destruct s1 as [|c1 s1]; [done|].
  destruct (CharClass.lit chSlash c1) eqn:Hc1; [|done].
  apply lit_true in Hc1 as ->.
  apply repeatGreedy_longest in Hm as (d & s2 & -> & Hd & Hddot & Hm & Hmax).
  destruct s2 as [|c2 T]; [done|].
  destruct (CharClass.lit chSlash c2) eqn:Hc2; [|done].
  apply lit_true in Hc2 as ->. injection Hm as <-.
  rewrite (take_matched d). exists ws, d, T.
  repeat split; [done|by apply nonempty_of_length|done|].
  intros T1 T2 -> HT1.
  specialize (Hmax (chSlash :: T1) (chSlash :: T2) eq_refl ltac:(done)
                ltac:(by constructor)).
  simpl in Hmax. by replace (CharClass.lit chSlash chSlash) with true in Hmax by done.
Qed.

(** [(?:\[(.*?)\])?\s*\/(.+)\/], read backwards. *)
Lemma match_reading_inv (s : jsstring) (caps caps' : Captures) :
  matchRe (Seq readingPart (Seq (Repeat true 0 CharClass.space) glossPart))
    s caps (λ _ c, Some c) = Some caps' →
  ∃ kana ws d T,
    s = bracketed kana ++ ws ++ chSlash :: d ++ chSlash :: T
    ∧ (∀ r, kana = Some r → Forall (λ c, CharClass.dot c = true) r)
    ∧ Forall (λ c, CharClass.space c = true) ws
    ∧ d ≠ [] ∧ Forall (λ c, CharClass.dot c = true) d
    ∧ (∀ T1 T2, T = T1 ++ chSlash :: T2 →
                ¬ Forall (λ c, CharClass.dot c = true) T1)
    ∧ caps' = <[2 := Some d]> (match kana with
                               | Some r => <[1 := Some r]> caps
                               | None => caps
                               end).
Proof.
  unfold readingPart. cbn [matchRe].
  set (inner := match s with [] => None | c :: s' => _ end).
  destruct inner as [y|] eqn:Hinner; subst inner.
  - intros [= ->].
    destruct s as [|c0 s0]; [done|].
    destruct (CharClass.lit chLBracket c0) eqn:Hc0; [|done].
    apply lit_true in Hc0 as ->.
    apply repeatLazy_inv in Hinner as (r & s1 & -> & _ & Hr & Hm).
    destruct s1 as [|c1 s1]; [done|].
    destruct (CharClass.lit chRBracket c1) eqn:Hc1; [|done].
    apply lit_true in Hc1 as ->. rewrite (take_matched r) in Hm.
    apply match_spaces_gloss_inv
      in Hm as (ws & d & T & -> & Hws & Hd & Hddot & HT & ->).
    exists (Some r), ws, d, T. simpl. rewrite <- app_assoc. simpl.
    repeat split; try done. by intros ? [= <-].
  - intros Hm.
    apply match_spaces_gloss_inv
      in Hm as (ws & d & T & -> & Hws & Hd & Hddot & HT & ->).
    exists None, ws, d, T. by repeat split.
Qed.

(** The whole pattern, read backwards: a line that matches is made of the
    three captured fields, in order, with the punctuation of the pattern
    between them. *)
Lemma matchEntry_inv (s k : jsstring) (ka : option jsstring) (d : jsstring) :
  matchEntry s = Some (k, ka, d) →
  ∃ ws1 ws2 T,
    s = k ++ ws1 ++ bracketed ka ++ ws2 ++ chSlash :: d ++ chSlash :: T
    ∧ k ≠ [] ∧ Forall (λ c, CharClass.dot c = true) k
    ∧ ws1 ≠ [] ∧ Forall (λ c, CharClass.space c = true) ws1
    ∧ (∀ r, ka = Some r → Forall (λ c, CharClass.dot c = true) r)
    ∧ Forall (λ c, CharClass.space c = true) ws2
    ∧ d ≠ [] ∧ Forall (λ c, CharClass.dot c = true) d
    ∧ (∀ T1 T2, T = T1 ++ chSlash :: T2 →
                ¬ Forall (λ c, CharClass.dot c = true) T1).
Proof.
  unfold matchEntry. destruct (exec entryPattern 3 s) as [caps|] eqn:Hm; [|done].
  unfold exec, entryPattern, headwordPart in Hm. cbn [matchRe] in Hm.
  apply repeatLazy_inv in Hm as (H & s1 & -> & HH & HHdot & Hm).
  rewrite (take_matched H) in Hm.
  apply repeatGreedy_inv in Hm as (ws1 & s2 & -> & Hws1 & Hws1s & Hm).
  apply match_reading_inv in Hm
    as (kana & ws2 & d' & T & -> & Hkana & Hws2 & Hd & Hddot & HT & ->).
  destruct kana as [r|]; simpl; intros [= <- <- <-];
    exists ws1, ws2, T; repeat split;
    try done; by apply nonempty_of_length.
Qed.

(** ** Invariants of the display entries *)

(** The loop body of [renderWordEntries], case by case, on an array
    written as its front and its last entry. *)
Lemma word_step_cases (es : list Word.DisplayEntry) dictEntry reason0 :
  match matchEntry dictEntry with
  | None => Word.step es (dictEntry, reason0) = es
  | Some (k, ka, d) =>
      (∃ es0 prev,
         es = es0 ++ [prev] ∧ Word.kanjiKana prev = k ∧ Word.definition prev = d
         ∧ Word.step es (dictEntry, reason0)
           = es0 ++ [if truthy ka then Word.pushKana prev (default [] ka) else prev])
      ∨ ((∀ prev, last es = Some prev →
                  ¬ (Word.kanjiKana prev = k ∧ Word.definition prev = d))
         ∧ Word.step es (dictEntry, reason0)
           = es ++ [Word.newEntry k ka d reason0])
  end.
Proof.
  destruct (matchEntry dictEntry) as [[[k ka] d]|] eqn:Hm.
  - destruct (last es) as [prev|] eqn:Hlast.
    + apply last_is_snoc in Hlast as [es0 ->].
      destruct (decide (Word.kanjiKana prev = k ∧ Word.definition prev = d))
        as [[Hk Hd]|Hne].
      * left. exists es0, prev. repeat split; try done.
        by apply (WordFacts.word_step_merge _ _ _ _ _ _ _ Hm).
      * right. split; [|by apply (WordFacts.word_step_new _ _ _ _ _ _ _ Hm)].
        by intros prev' [= <-].
    + apply last_None in Hlast as ->. right. split; [done|].
      by apply WordFacts.word_step_empty.
  - by apply (WordFacts.word_step_skip es (dictEntry, reason0)).
Qed.

(** The loop body of [renderNamesEntries], case by case. *)
Lemma names_step_cases (es : list Names.DisplayEntry) dictEntry reason0 :
  match Names.parse dictEntry with
  | None => Names.step es (dictEntry, reason0) = es
  | Some (k, ka, d) =>
      (∃ es0 prev,
         es = es0 ++ [prev] ∧ Names.definition prev = d
         ∧ Names.step es (dictEntry, reason0)
           = es0 ++ [Names.pushName prev (Names.mkName k ka)])
      ∨ ((∀ prev, last es = Some prev → Names.definition prev ≠ d)
         ∧ Names.step es (dictEntry, reason0)
           = es ++ [{| Names.names := [Names.mkName k ka];
                       Names.definition := d |}])
  end.
Proof.
  destruct (Names.parse dictEntry) as [[[k ka] d]|] eqn:Hm.
  - destruct (last es) as [prev|] eqn:Hlast.
    + apply last_is_snoc in Hlast as [es0 ->].
      destruct (decide (Names.definition prev = d)) as [Hd|Hne].
      * left. exists es0, prev. repeat split; try done.
        by apply (NamesFacts.names_step_merge _ _ _ _ _ _ _ Hm).
      * right. split; [|by apply (NamesFacts.names_step_new _ _ _ _ _ _ _ Hm)].
        by intros prev' [= <-].
    + apply last_None in Hlast as ->. right. split; [done|].
      by apply NamesFacts.names_step_empty.
  - apply (NamesFacts.names_step_skip es (dictEntry, reason0)).
    by apply NamesFacts.names_parse_None.
Qed.

(** A property of the entries that holds for the empty array and that
    the loop body keeps holds for the result of the loop. *)
Lemma word_entries_ind (P : list Word.DisplayEntry → Prop) :
  P [] → (∀ es item, P es → P (Word.step es item)) →
  ∀ data, P (Word.entries data).
Proof.
  intros Hnil Hstep data. induction data as [|item data IH] using rev_ind; [done|].
  rewrite WordFacts.word_entries_snoc. by apply Hstep.
Qed.

Lemma names_entries_ind (P : list Names.DisplayEntry → Prop) :
  P [] → (∀ es item, P es → P (Names.step es item)) →
  ∀ data, P (Names.entries data).
Proof.
  intros Hnil Hstep data. induction data as [|item data IH] using rev_ind; [done|].
  rewrite NamesFacts.names_entries_snoc. by apply Hstep.
Qed.

(** The fields that the second match of the names loop hands on come
    from a match of the pattern, so they are not empty. *)
Lemma names_parse_nonempty (dictEntry k : jsstring) (ka : option jsstring) (d : jsstring) :
  Names.parse dictEntry = Some (k, ka, d) → k ≠ [] ∧ d ≠ [].
Proof.
  unfold Names.parse, Names.rematch.
  destruct (matchEntry dictEntry) as [[[k0 ka0] d0]|] eqn:Hm; [|done]. simpl.
  destruct (matchEntry d0) as [[[k1 ka1] d1]|] eqn:Hm'; intros [= <- <- <-].
  - apply matchEntry_inv in Hm' as (? & ? & ? & _ & ? & _ & _ & _ & _ & _ & ? & _). done.
  - apply matchEntry_inv in Hm as (? & ? & ? & _ & ? & _ & _ & _ & _ & _ & ? & _). done.
Qed.

Lemma truthy_default (ka : option jsstring) :
  truthy ka = true → default [] ka ≠ [].
Proof. by destruct ka as [[|c r]|]. Qed.

Lemma word_accepted_snoc (data : list DataItem) (item : DataItem) :
  Word.accepted (data ++ [item])
  = Word.accepted data ++ option_list (matchEntry item.1).
Proof.
  unfold Word.accepted. rewrite omap_app. simpl.
  by destruct (matchEntry item.1).
Qed.

Lemma names_accepted_snoc (data : list DataItem) (item : DataItem) :
  Names.accepted (data ++ [item])
  = Names.accepted data ++ option_list (Names.parse item.1).
Proof.
  unfold Names.accepted. rewrite omap_app. simpl.
  by destruct (Names.parse item.1).
Qed.

Lemma not_all_dot (l : jsstring) :
  ¬ Forall (λ c, CharClass.dot c = true) l →
  ∃ c, c ∈ l ∧ CharClass.isLineTerminator c = true.
Proof.
  induction l as [|c l IH]; intros Hl; [by destruct Hl|].
  destruct (CharClass.isLineTerminator c) eqn:Hc.
  - exists c. split; [constructor|done].
  - destruct IH as (c' & Hin & Hc').
    + intros Hall. apply Hl. constructor; [|done].
      unfold CharClass.dot. by rewrite Hc.
    + exists c'. split; [by constructor|done].
Qed.

(** X1.  A line that matches the pattern is its three fields in order:
    the headword, white space, the reading in brackets when there is
    one, optional white space, and the definition between slashes.  The
    headword and the definition are not empty, no field holds a line
    terminator, and the definition is as long as can be: up to the next
    line terminator, nothing after its closing slash holds a slash. *)
Theorem matched_line_is_its_fields
    (dictEntry k : jsstring) (ka : option jsstring) (d : jsstring) :
  matchEntry dictEntry = Some (k, ka, d) →
  ∃ ws1 ws2 T,
    dictEntry = k ++ ws1 ++ bracketed ka ++ ws2 ++ chSlash :: d ++ chSlash :: T
    ∧ k ≠ [] ∧ Forall (λ c, CharClass.isLineTerminator c = false) k
    ∧ ws1 ≠ [] ∧ Forall (λ c, CharClass.space c = true) ws1
    ∧ (∀ r, ka = Some r → Forall (λ c, CharClass.isLineTerminator c = false) r)
    ∧ Forall (λ c, CharClass.space c = true) ws2
    ∧ d ≠ [] ∧ Forall (λ c, CharClass.isLineTerminator c = false) d
    ∧ (∀ T1 T2, T = T1 ++ chSlash :: T2 →
                ∃ c, c ∈ T1 ∧ CharClass.isLineTerminator c = true).
Proof.
  assert (∀ l, Forall (λ c, CharClass.dot c = true) l →
               Forall (λ c, CharClass.isLineTerminator c = false) l) as Hdot.
  { intros l Hl. eapply Forall_impl; [exact Hl|]. intros c. unfold CharClass.dot.
    by destruct (CharClass.isLineTerminator c). }
  intros Hm.
  apply matchEntry_inv in Hm
    as (ws1 & ws2 & T & -> & Hk & Hkdot & Hws1 & Hws1s & Hka & Hws2 & Hd & Hddot & HT).
  exists ws1, ws2, T. repeat split; try done; try by apply Hdot.
  - intros r Hr. apply Hdot. by apply Hka.
  - intros T1 T2 HT12. apply not_all_dot. by apply (HT T1 T2).
Qed.

Lemma matched_line_is_its_fields_witness :
  matchEntry Samples.whaleCalf1
    = Some (Samples.koKujira, Some Samples.kokujira, u "(n) whale calf")
  ∧ ∃ ws1 ws2 T,
      Samples.whaleCalf1
      = Samples.koKujira ++ ws1 ++ bracketed (Some Samples.kokujira) ++ ws2
        ++ chSlash :: u "(n) whale calf" ++ chSlash :: T.
Proof.
  split; [vm_compute; reflexivity|].
  destruct (matched_line_is_its_fields Samples.whaleCalf1
              Samples.koKujira (Some Samples.kokujira) (u "(n) whale calf"))
    as (ws1 & ws2 & T & Heq & _).
  - vm_compute; reflexivity.
  - exists ws1, ws2, T. exact Heq.
Defined.

Lemma two_slashes (pre mid post : jsstring) :
  2 ≤ length (filter (λ c, c = chSlash) (pre ++ chSlash :: mid ++ chSlash :: post)).
Proof.
  rewrite filter_app, length_app, filter_cons_True by done.
  cbn [length]. rewrite filter_app, length_app, filter_cons_True by done.
  cbn [length]. lia.
Qed.

(** X2.  A line of fewer than five code units, or with fewer than two
    slashes, never matches; the empty line is one of them.  Both loops
    leave their entries as they are on such a line. *)
Theorem short_line_is_skipped (dictEntry : jsstring) :
  length dictEntry < 5 ∨ length (filter (λ c, c = chSlash) dictEntry) < 2 →
  matchEntry dictEntry = None
  ∧ (∀ es reason0, Word.step es (dictEntry, reason0) = es)
  ∧ (∀ es reason0, Names.step es (dictEntry, reason0) = es).
Proof.
  intros Hshort.
  assert (matchEntry dictEntry = None) as Hm.
  { destruct (matchEntry dictEntry) as [[[k ka] d]|] eqn:Hm; [exfalso|done].
    apply matchEntry_inv in Hm
      as (ws1 & ws2 & T & -> & Hk & _ & Hws1 & _ & _ & _ & Hd & _).
    destruct Hshort as [Hlen|Hslash].
    - rewrite !length_app in Hlen. simpl in Hlen. rewrite length_app in Hlen.
      simpl in Hlen.
      destruct k; [done|]. destruct ws1; [done|]. destruct d; [done|].
      simpl in Hlen. lia.
    - pose proof (two_slashes (k ++ ws1 ++ bracketed ka ++ ws2) d T) as Htwo.
      rewrite <- !app_assoc in Htwo.
      apply Nat.lt_nge in Hslash. apply Hslash. exact Htwo. }
  split; [done|]. split; intros es reason0.
  - by apply (WordFacts.word_step_skip es (dictEntry, reason0)).
  - by apply (NamesFacts.names_step_skip es (dictEntry, reason0)).
Qed.

Lemma short_line_is_skipped_witness :
  (length (u "a /b") < 5 ∨ length (filter (λ c, c = chSlash) (u "a /b")) < 2)
  ∧ matchEntry (u "a /b") = None.
Proof.
  split; [left; vm_compute; lia|].
  refine (proj1 (short_line_is_skipped (u "a /b") _)).
  left. vm_compute. lia.
Defined.

(** X3.  Whatever the input, every display entry of the word loop has a
    non-empty headword and a non-empty definition, and no reading in its
    list is the empty string: an empty bracket never becomes a reading. *)
Theorem word_entries_have_no_empty_field (data : list DataItem) :
  Forall (λ e, Word.kanjiKana e ≠ [] ∧ Word.definition e ≠ []
               ∧ Forall (λ r, r ≠ []) (Word.kana e))
         (Word.entries data).
Proof.
  apply word_entries_ind; [constructor|].
  intros es [dictEntry reason0] IH.
  pose proof (word_step_cases es dictEntry reason0) as Hcases.
  destruct (matchEntry dictEntry) as [[[k ka] d]|] eqn:Hm; [|by rewrite Hcases].
  destruct Hcases as [(es0 & prev & -> & Hk & Hd & ->)|[_ ->]].
  - apply Forall_app in IH as [IH0 IHprev]. apply Forall_app. split; [done|].
    apply Forall_singleton. apply Forall_singleton in IHprev as (? & ? & Hkana).
    destruct (truthy ka) eqn:Hka; [|done]. simpl. repeat split; try done.
    apply Forall_app. split; [done|]. apply Forall_singleton.
    by apply truthy_default.
  - apply Forall_app. split; [done|]. apply Forall_singleton.
    apply matchEntry_inv in Hm as (? & ? & ? & _ & ? & _ & _ & _ & _ & _ & ? & _).
    unfold Word.newEntry. simpl. repeat split; try done.
    destruct (truthy ka) eqn:Hka; [|done].
    apply Forall_singleton. by apply truthy_default.
Qed.

(** X4.  Two neighbours in the entries of the word loop never have both
    the same headword and the same definition: lines that could be
    merged are merged. *)
Theorem word_neighbours_differ
    (data : list DataItem) (i : nat) (e1 e2 : Word.DisplayEntry) :
  Word.entries data !! i = Some e1 →
  Word.entries data !! S i = Some e2 →
  ¬ (Word.kanjiKana e1 = Word.kanjiKana e2
     ∧ Word.definition e1 = Word.definition e2).
Proof.
  revert i e1 e2.
  apply (word_entries_ind
           (λ es, ∀ i e1 e2, es !! i = Some e1 → es !! S i = Some e2 →
                  ¬ (Word.kanjiKana e1 = Word.kanjiKana e2
                     ∧ Word.definition e1 = Word.definition e2))); [done|].
  intros es [dictEntry reason0] IH i e1 e2.
  pose proof (word_step_cases es dictEntry reason0) as Hcases.
  destruct (matchEntry dictEntry) as [[[k ka] d]|] eqn:Hm;
    [|rewrite Hcases; apply IH].
  destruct Hcases as [(es0 & prev & -> & Hk & Hd & ->)|[Hlast ->]].
  - set (prev' := if truthy ka then _ else _).
    assert (Word.kanjiKana prev' = Word.kanjiKana prev
            ∧ Word.definition prev' = Word.definition prev) as [Hk' Hd']
      by (subst prev'; by destruct (truthy ka)).
    intros H1 H2.
    apply lookup_snoc_Some in H2 as [[Hlt H2]|[Hlen <-]].
    + apply lookup_snoc_Some in H1 as [[_ H1]|[? _]]; [|lia].
      apply (IH i); by apply lookup_app_l_Some.
    + apply lookup_snoc_Some in H1 as [[_ H1]|[? _]]; [|lia].
      rewrite Hk', Hd'. apply (IH i).
      * by apply lookup_app_l_Some.
      * apply lookup_snoc_Some. right. done.
  - intros H1 H2.
    apply lookup_snoc_Some in H2 as [[Hlt H2]|[Hlen <-]].
    + apply lookup_snoc_Some in H1 as [[_ H1]|[? _]]; [|lia].
      by apply (IH i).
    + apply lookup_snoc_Some in H1 as [[_ H1]|[? _]]; [|lia].
      simpl. apply Hlast. rewrite last_lookup, <- Hlen. done.
Qed.

Lemma word_neighbours_differ_witness :
  Word.entries [(Samples.whaleCalf1, None); (Samples.whaleCalf2, None)] !! 0
    = Some (Word.newEntry Samples.koKujira (Some Samples.kokujira)
              (u "(n) whale calf") None)
  ∧ Word.entries [(Samples.whaleCalf1, None); (Samples.whaleCalf2, None)] !! 1
    = Some (Word.newEntry Samples.koKujiraKanji (Some Samples.kokujira)
              (u "(n) whale calf") None)
  ∧ ¬ (Samples.koKujira = Samples.koKujiraKanji
       ∧ u "(n) whale calf" = u "(n) whale calf").
Proof.
  split; [vm_compute; reflexivity|].
  split; [vm_compute; reflexivity|].
  refine (word_neighbours_differ
            [(Samples.whaleCalf1, None); (Samples.whaleCalf2, None)] 0
            (Word.newEntry Samples.koKujira (Some Samples.kokujira)
               (u "(n) whale calf") None)
            (Word.newEntry Samples.koKujiraKanji (Some Samples.kokujira)
               (u "(n) whale calf") None) _ _).
  - vm_compute; reflexivity.
  - vm_compute; reflexivity.
Defined.

(** X5.  The word loop loses no reading and invents none: the reading
    lists of the display entries, one after the other, are the non-empty
    readings of the lines that matched, in the order of the lines and
    with their repetitions. *)
Theorem word_readings_are_kept (data : list DataItem) :
  concat (Word.kana <$> Word.entries data)
  = concat ((λ m : ParsedEntry, if truthy m.1.2 then [default [] m.1.2] else [])
            <$> Word.accepted data).
Proof.
  induction data as [|[dictEntry reason0] data IH] using rev_ind; [done|].
  rewrite WordFacts.word_entries_snoc, word_accepted_snoc. cbn [fst].
  pose proof (word_step_cases (Word.entries data) dictEntry reason0) as Hcases.
  destruct (matchEntry dictEntry) as [[[k ka] d]|] eqn:Hm.
  - rewrite fmap_app, concat_app, <- IH.
    destruct Hcases as [(es0 & prev & Hes & Hk & Hd & ->)|[_ ->]].
    + rewrite Hes, !fmap_app, !concat_app. simpl. rewrite !app_nil_r.
      destruct (truthy ka); simpl; by rewrite ?app_nil_r, ?app_assoc.
    + rewrite fmap_app, concat_app. simpl. by rewrite !app_nil_r.
  - rewrite Hcases. simpl. by rewrite app_nil_r.
Qed.

Lemma mkName_nonempty (k : jsstring) (ka : option jsstring) :
  k ≠ [] →
  Names.kana (Names.mkName k ka) ≠ []
  ∧ (∀ x, Names.kanji (Names.mkName k ka) = Some x → x ≠ []).
Proof.
  intros Hk. unfold Names.mkName. destruct (truthy ka) eqn:Hka; simpl.
  - split; [by apply truthy_default|]. by intros x [= <-].
  - split; [done|]. by intros x.
Qed.

(** X6.  Whatever the input, every display entry of the names loop has
    at least one name and a non-empty definition; every name has a
    non-empty [kana], and a [kanji] that is not the empty string when it
    is defined.  So the test [if (name.kanji)] of the rendering loop is
    the test of [kanji] being defined. *)
Theorem names_entries_have_no_empty_field (data : list DataItem) :
  Forall (λ e, Names.names e ≠ [] ∧ Names.definition e ≠ []
               ∧ Forall (λ n, Names.kana n ≠ []
                              ∧ ∀ x, Names.kanji n = Some x → x ≠ [])
                        (Names.names e))
         (Names.entries data).
Proof.
  apply names_entries_ind; [constructor|].
  intros es [dictEntry reason0] IH.
  pose proof (names_step_cases es dictEntry reason0) as Hcases.
  destruct (Names.parse dictEntry) as [[[k ka] d]|] eqn:Hm; [|by rewrite Hcases].
  apply names_parse_nonempty in Hm as [Hk Hd].
  destruct Hcases as [(es0 & prev & -> & Hd' & ->)|[_ ->]].
  - apply Forall_app in IH as [IH0 IHprev]. apply Forall_app. split; [done|].
    apply Forall_singleton. apply Forall_singleton in IHprev as (? & ? & Hnames).
    simpl. repeat split; [by destruct (Names.names prev)|done|].
    apply Forall_app. split; [done|]. apply Forall_singleton.
    by apply mkName_nonempty.
  - apply Forall_app. split; [done|]. apply Forall_singleton.
    simpl. repeat split; [done|done|].
    apply Forall_singleton. by apply mkName_nonempty.
Qed.

(** X7.  Two neighbours in the entries of the names loop never have the
    same definition. *)
Theorem names_neighbours_differ
    (data : list DataItem) (i : nat) (e1 e2 : Names.DisplayEntry) :
  Names.entries data !! i = Some e1 →
  Names.entries data !! S i = Some e2 →
  Names.definition e1 ≠ Names.definition e2.
Proof.
  revert i e1 e2.
  apply (names_entries_ind
           (λ es, ∀ i e1 e2, es !! i = Some e1 → es !! S i = Some e2 →
                  Names.definition e1 ≠ Names.definition e2)); [done|].
  intros es [dictEntry reason0] IH i e1 e2.
  pose proof (names_step_cases es dictEntry reason0) as Hcases.
  destruct (Names.parse dictEntry) as [[[k ka] d]|] eqn:Hm;
    [|rewrite Hcases; apply IH].
  destruct Hcases as [(es0 & prev & -> & Hd & ->)|[Hlast ->]].
  - intros H1 H2.
    apply lookup_snoc_Some in H2 as [[Hlt H2]|[Hlen <-]].
    + apply lookup_snoc_Some in H1 as [[_ H1]|[? _]]; [|lia].
      apply (IH i); by apply lookup_app_l_Some.
    + apply lookup_snoc_Some in H1 as [[_ H1]|[? _]]; [|lia].
      simpl. apply (IH i).
      * by apply lookup_app_l_Some.
      * apply lookup_snoc_Some. right. done.
  - intros H1 H2.
    apply lookup_snoc_Some in H2 as [[Hlt H2]|[Hlen <-]].
    + apply lookup_snoc_Some in H1 as [[_ H1]|[? _]]; [|lia].
      by apply (IH i).
    + apply lookup_snoc_Some in H1 as [[_ H1]|[? _]]; [|lia].
      simpl. apply Hlast. rewrite last_lookup, <- Hlen. done.
Qed.

Lemma names_neighbours_differ_witness :
  Names.entries [(u "A [x] /g/", None); (u "B [y] /h/", None)] !! 0
    = Some {| Names.names := [Names.mkName (u "A") (Some (u "x"))];
              Names.definition := u "g" |}
  ∧ Names.entries [(u "A [x] /g/", None); (u "B [y] /h/", None)] !! 1
    = Some {| Names.names := [Names.mkName (u "B") (Some (u "y"))];
              Names.definition := u "h" |}
  ∧ u "g" ≠ u "h".
Proof.
  split; [vm_compute; reflexivity|].
  split; [vm_compute; reflexivity|].
  refine (names_neighbours_differ
            [(u "A [x] /g/", None); (u "B [y] /h/", None)] 0
            {| Names.names := [Names.mkName (u "A") (Some (u "x"))];
               Names.definition := u "g" |}
            {| Names.names := [Names.mkName (u "B") (Some (u "y"))];
               Names.definition := u "h" |} _ _).
  - vm_compute; reflexivity.
  - vm_compute; reflexivity.
Defined.

(** X8.  The names loop shows one name for every line that matched, in
    the order of the lines: the name lists of the display entries, one
    after the other, are the names built from the lines that were not
    skipped. *)
Theorem names_are_kept (data : list DataItem) :
  concat (Names.names <$> Names.entries data)
  = (λ m : ParsedEntry, Names.mkName m.1.1 m.1.2) <$> Names.accepted data.
Proof.
  induction data as [|[dictEntry reason0] data IH] using rev_ind; [done|].
  rewrite NamesFacts.names_entries_snoc, names_accepted_snoc. cbn [fst].
  pose proof (names_step_cases (Names.entries data) dictEntry reason0) as Hcases.
  destruct (Names.parse dictEntry) as [[[k ka] d]|] eqn:Hm.
  - rewrite fmap_app, <- IH.
    destruct Hcases as [(es0 & prev & Hes & Hd & ->)|[_ ->]].
    + rewrite Hes, !fmap_app, !concat_app. simpl. by rewrite !app_nil_r, app_assoc.
    + rewrite fmap_app, concat_app. simpl. done.
  - rewrite Hcases. simpl. by rewrite app_nil_r.
Qed.

(** ** Processing the lines in batches *)

(** The loop bodies only look at the end of the array. *)
Lemma word_step_app_l (es es' : list Word.DisplayEntry) (item : DataItem) :
  es' ≠ [] → Word.step (es ++ es') item = es ++ Word.step es' item.
Proof.
  intros Hes'. destruct es' as [|prev es0 _] using rev_ind; [done|].
  destruct item as [dictEntry reason0]. unfold Word.step.
  destruct (matchEntry dictEntry) as [[[k ka] d]|]; [|done].
  rewrite (app_assoc es es0 [prev]), !last_snoc.
  destruct (_ && _); [|by rewrite <- !app_assoc].
  destruct (truthy ka); [|by rewrite <- app_assoc].
  by rewrite !update_last_snoc, <- app_assoc.
Qed.

Lemma names_step_app_l (es es' : list Names.DisplayEntry) (item : DataItem) :
  es' ≠ [] → Names.step (es ++ es') item = es ++ Names.step es' item.
Proof.
  intros Hes'. destruct es' as [|prev es0 _] using rev_ind; [done|].
  destruct item as [dictEntry reason0]. unfold Names.step.
  destruct (Names.parse dictEntry) as [[[k ka] d]|]; [|done].
  rewrite (app_assoc es es0 [prev]), !last_snoc.
  destruct (bool_decide _); [|by rewrite <- !app_assoc].
  by rewrite !update_last_snoc, <- app_assoc.
Qed.

Lemma word_foldl_app_l (es es' : list Word.DisplayEntry) (post : list DataItem) :
  es' ≠ [] → foldl Word.step (es ++ es') post = es ++ foldl Word.step es' post.
Proof.
  revert es'. induction post as [|item post IH]; intros es' Hes'; [done|].
  simpl. rewrite word_step_app_l by done. apply IH.
  apply nonempty_of_length.
  pose proof (WordFacts.word_step_length es' item).
  destruct es'; [done|simpl in *; lia].
Qed.

Lemma names_foldl_app_l (es es' : list Names.DisplayEntry) (post : list DataItem) :
  es' ≠ [] → foldl Names.step (es ++ es') post = es ++ foldl Names.step es' post.
Proof.
  revert es'. induction post as [|item post IH]; intros es' Hes'; [done|].
  simpl. rewrite names_step_app_l by done. apply IH.
  apply nonempty_of_length.
  pose proof (NamesFacts.names_step_length es' item).
  destruct es'; [done|simpl in *; lia].
Qed.

(** X9.  The word loop can be run on two batches of lines separately
    when the last line that matches in the first batch and the first
    line that matches in the second do not have both the same headword
    and the same definition: the entries of the whole input are then the
    entries of the first batch followed by those of the second. *)
Theorem word_batches_compose (pre post : list DataItem) :
  (∀ p q : ParsedEntry,
     last (Word.accepted pre) = Some p → head (Word.accepted post) = Some q →
     ¬ (p.1.1 = q.1.1 ∧ p.2 = q.2)) →
  Word.entries (pre ++ post) = Word.entries pre ++ Word.entries post.
Proof.
  rewrite WordFacts.word_entries_app. unfold Word.entries at 3.
  induction post as [|[dictEntry reason0] post IH]; intros Hedge.
  - simpl. by rewrite app_nil_r.
  - cbn [foldl].
    pose proof (word_step_cases (Word.entries pre) dictEntry reason0) as Hcases.
    pose proof (word_step_cases [] dictEntry reason0) as Hnil.
    unfold Word.accepted in Hedge. cbn [omap list_omap fst] in Hedge.
    destruct (matchEntry dictEntry) as [[[k ka] d]|] eqn:Hm.
    + destruct Hnil as [(es0 & prev & Hes & _)|[_ ->]];
        [by destruct es0|].
      destruct Hcases as [(es0 & prev & Hes & Hk & Hd & _)|[_ ->]].
      * exfalso. pose proof (WordFacts.word_last_entry_key pre) as Hkey.
        rewrite Hes, last_snoc in Hkey.
        destruct (last (Word.accepted pre)) as [p|] eqn:Hp; [|done].
        injection Hkey as Hk' Hd'.
        apply (Hedge p (k, ka, d) Hp eq_refl). simpl.
        by rewrite <- Hk', <- Hd'.
      * by apply word_foldl_app_l.
    + rewrite Hcases, Hnil. by apply IH.
Qed.

Lemma word_batches_compose_witness :
  Word.entries ([(Samples.whaleCalf1, None)] ++ [(Samples.whaleCalf2, None)])
  = Word.entries [(Samples.whaleCalf1, None)]
    ++ Word.entries [(Samples.whaleCalf2, None)].
Proof.
  apply (word_batches_compose [(Samples.whaleCalf1, None)] [(Samples.whaleCalf2, None)]).
  intros p q Hp Hq. vm_compute in Hp, Hq.
  injection Hp as <-. injection Hq as <-. simpl.
  intros [Heq _]. discriminate Heq.
Defined.

(** X10.  The names loop can be run on two batches of lines separately
    when the last line that matches in the first batch and the first
    line that matches in the second do not have the same definition. *)
Theorem names_batches_compose (pre post : list DataItem) :
  (∀ p q : ParsedEntry,
     last (Names.accepted pre) = Some p → head (Names.accepted post) = Some q →
     p.2 ≠ q.2) →
  Names.entries (pre ++ post) = Names.entries pre ++ Names.entries post.
Proof.
  rewrite NamesFacts.names_entries_app. unfold Names.entries at 3.
  induction post as [|[dictEntry reason0] post IH]; intros Hedge.
  - simpl. by rewrite app_nil_r.
  - cbn [foldl].
    pose proof (names_step_cases (Names.entries pre) dictEntry reason0) as Hcases.
    pose proof (names_step_cases [] dictEntry reason0) as Hnil.
    unfold Names.accepted in Hedge. cbn [omap list_omap fst] in Hedge.
    destruct (Names.parse dictEntry) as [[[k ka] d]|] eqn:Hm.
    + destruct Hnil as [(es0 & prev & Hes & _)|[_ ->]];
        [by destruct es0|].
      destruct Hcases as [(es0 & prev & Hes & Hd & _)|[_ ->]].
      * exfalso. pose proof (NamesFacts.names_last_entry_key pre) as Hkey.
        rewrite Hes, last_snoc in Hkey.
        destruct (last (Names.accepted pre)) as [p|] eqn:Hp; [|done].
        injection Hkey as Hd'.
        apply (Hedge p (k, ka, d) Hp eq_refl). simpl.
        by rewrite <- Hd'.
      * by apply names_foldl_app_l.
    + rewrite Hcases, Hnil. by apply IH.
Qed.

Lemma names_batches_compose_witness :
  Names.entries ([(u "A [x] /g/", None)] ++ [(u "B [y] /h/", None)])
  = Names.entries [(u "A [x] /g/", None)]
    ++ Names.entries [(u "B [y] /h/", None)].
Proof.
  apply (names_batches_compose [(u "A [x] /g/", None)] [(u "B [y] /h/", None)]).
  intros p q Hp Hq. vm_compute in Hp, Hq.
  injection Hp as <-. injection Hq as <-. simpl.
  intros Heq. discriminate Heq.
Defined.

(** ** Which entry is shown as selected *)

Lemma entry_selected_iff {A : Type} (options : PopupOptions) (entries : list A)
    (i : nat) (classes : list string) :
  entryClasses options entries !! i = Some classes →
  ("-selected"%string ∈ classes
   ↔ Z.of_nat i = getSelectedIndex options (Z.of_nat (length entries))).
Proof.
  unfold entryClasses. rewrite list_lookup_imap.
  destruct (entries !! i); [|done]. intros [= <-].
  case_bool_decide as Hsel.
  - split; [done|]. intros _. apply list_elem_of_In. simpl. auto.
  - split; [|done]. intros Hin.
    apply list_elem_of_singleton in Hin. discriminate Hin.
Qed.

Lemma entryClasses_length {A : Type} (options : PopupOptions) (entries : list A) :
  length (entryClasses options entries) = length entries.
Proof. unfold entryClasses. by rewrite length_imap. Qed.

(** X11.  Whatever the options are, at most one entry element carries
    the class [-selected]. *)
Theorem at_most_one_entry_selected {A : Type}
    (options : PopupOptions) (entries : list A)
    (i j : nat) (ci cj : list string) :
  entryClasses options entries !! i = Some ci →
  entryClasses options entries !! j = Some cj →
  "-selected"%string ∈ ci → "-selected"%string ∈ cj →
  i = j.
Proof.
  intros Hi Hj Hci Hcj.
  apply (entry_selected_iff _ _ _ _ Hi) in Hci.
  apply (entry_selected_iff _ _ _ _ Hj) in Hcj. lia.
Qed.

Lemma at_most_one_entry_selected_witness :
  entryClasses (Samples.copyAt 4) [1; 2; 3] !! 1
    = Some ["entry"; "-selected"]%string
  ∧ 1 = 1.
Proof.
  split; [reflexivity|].
  refine (at_most_one_entry_selected (Samples.copyAt 4) [1; 2; 3] 1 1
            ["entry"; "-selected"]%string ["entry"; "-selected"]%string
            eq_refl eq_refl _ _).
  - apply list_elem_of_In. simpl. auto.
  - apply list_elem_of_In. simpl. auto.
Defined.

(** X12.  With copy mode on and a cursor [copyIndex >= 0], the entry that
    carries [-selected] is the one at position [copyIndex] modulo the
    number of entries; there is one as soon as there is an entry, and
    moving the cursor by the number of entries selects the same entry
    again. *)
Theorem cursor_wraps_around {A : Type}
    (options : PopupOptions) (entries : list A) (c : Z) :
  copyMode options = Some true → copyIndex options = Some c → (0 ≤ c)%Z →
  (∀ i classes,
     entryClasses options entries !! i = Some classes →
     ("-selected"%string ∈ classes
      ↔ Z.of_nat i = (c mod Z.of_nat (length entries))%Z))
  ∧ (entries ≠ [] →
     ∃ i classes,
       entryClasses options entries !! i = Some classes
       ∧ "-selected"%string ∈ classes)
  ∧ entryClasses
      {| showDefinitions := showDefinitions options;
         copyMode := copyMode options;
         copyIndex := Some (c + Z.of_nat (length entries))%Z |} entries
    = entryClasses options entries.
Proof.
  intros Hmode Hc Hpos.
  assert (entries ≠ [] →
          getSelectedIndex options (Z.of_nat (length entries))
          = (c mod Z.of_nat (length entries))%Z) as Hsel.
  { intros Hne. rewrite (getSelectedIndex_active options c _ Hmode Hc).
    - apply Z.rem_mod_nonneg; [done|]. destruct entries; [done|simpl; lia].
    - destruct entries; [done|simpl; lia]. }
  split; [|split].
  - intros i classes Hi. rewrite (entry_selected_iff _ _ _ _ Hi).
    destruct entries as [|e entries]; [done|]. by rewrite Hsel.
  - intros Hne.
    pose proof (Z.mod_pos_bound c (Z.of_nat (length entries))
                  ltac:(destruct entries; [done|simpl; lia])) as Hbound.
    set (i := Z.to_nat (c mod Z.of_nat (length entries))).
    destruct (entryClasses options entries !! i) as [classes|] eqn:Hi.
    + exists i, classes. split; [done|].
      apply (entry_selected_iff _ _ _ _ Hi). rewrite Hsel by done.
      subst i. lia.
    + apply lookup_ge_None in Hi. rewrite entryClasses_length in Hi.
      subst i. lia.
  - destruct entries as [|e entries]; [done|].
    set (n := Z.of_nat (length (e :: entries))).
    assert (0 < n)%Z as Hn by (subst n; simpl; lia).
    assert (getSelectedIndex
              {| showDefinitions := showDefinitions options;
                 copyMode := copyMode options;
                 copyIndex := Some (c + n)%Z |} n
            = getSelectedIndex options n) as Heq.
    { rewrite (getSelectedIndex_active
                 {| showDefinitions := showDefinitions options;
                    copyMode := copyMode options;
                    copyIndex := Some (c + n)%Z |} (c + n) n Hmode eq_refl) by lia.
      rewrite (getSelectedIndex_active options c n Hmode Hc) by lia.
      rewrite !Z.rem_mod_nonneg by lia.
      rewrite <- (Z.mul_1_l n) at 1. by rewrite Z.mod_add by lia. }
    unfold entryClasses. fold n. by rewrite Heq.
Qed.

Lemma cursor_wraps_around_witness :
  (0 ≤ 4)%Z
  ∧ entryClasses (Samples.copyAt (4 + 3)) [1; 2; 3]
    = entryClasses (Samples.copyAt 4) [1; 2; 3].
Proof.
  split; [lia|].
  refine (proj2 (proj2 (cursor_wraps_around (Samples.copyAt 4) [1; 2; 3] 4
                          eq_refl eq_refl _))).
  lia.
Defined.

(** X13.  With copy mode on and a negative cursor, no entry is shown as
    selected, unless the cursor is a multiple of the number of entries,
    in which case the first entry is. *)
Theorem negative_cursor_selects_first_or_none {A : Type}
    (options : PopupOptions) (entries : list A) (c : Z)
    (i : nat) (classes : list string) :
  copyMode options = Some true → copyIndex options = Some c → (c < 0)%Z →
  entryClasses options entries !! i = Some classes →
  ("-selected"%string ∈ classes
   ↔ i = 0 ∧ (Z.of_nat (length entries) | c)%Z).
Proof.
  intros Hmode Hc Hneg Hi. rewrite (entry_selected_iff _ _ _ _ Hi).
  assert (0 < Z.of_nat (length entries))%Z as Hn.
  { apply lookup_lt_Some in Hi. rewrite entryClasses_length in Hi. lia. }
  rewrite (getSelectedIndex_active options c _ Hmode Hc) by lia.
  pose proof (Z.rem_bound_pos_neg c _ Hn ltac:(lia)) as Hbound.
  rewrite <- Z.rem_divide by lia. lia.
Qed.

Lemma negative_cursor_selects_first_or_none_witness :
  (-1 < 0)%Z
  ∧ ("-selected"%string ∈ ["entry"%string] ↔ 1 = 0 ∧ (Z.of_nat 3 | -1)%Z).
Proof.
  split; [lia|].
  refine (negative_cursor_selects_first_or_none (Samples.copyAt (-1)) [1; 2; 3]
            (-1) 1 ["entry"%string] eq_refl eq_refl _ eq_refl).
  lia.
Defined.

(** ** What is shown for an entry *)

Lemma replaceSlashes_app (s t : jsstring) :
  replaceSlashes (s ++ t) = replaceSlashes s ++ replaceSlashes t.
Proof. unfold replaceSlashes. apply bind_app. Qed.

Lemma replaceSlashes_id (s : jsstring) :
  chSlash ∉ s → replaceSlashes s = s.
Proof.
  induction s as [|c s IH]; intros Hs; [done|].
  apply not_elem_of_cons in Hs as [Hc Hs].
  change (replaceSlashes (c :: s)) with
    ((if bool_decide (c = chSlash) then u "; " else [c]) ++ replaceSlashes s).
  rewrite bool_decide_eq_false_2 by congruence. by rewrite IH.
Qed.

Lemma replaceSlashes_join (segments : list jsstring) :
  Forall (λ seg, chSlash ∉ seg) segments →
  replaceSlashes (join [chSlash] segments) = join (u "; ") segments.
Proof.
  induction 1 as [|seg segments Hseg _ IH]; [done|].
  destruct segments as [|seg' segments]; [by apply replaceSlashes_id|].
  change (join [chSlash] (seg :: seg' :: segments))
    with (seg ++ [chSlash] ++ join [chSlash] (seg' :: segments)).
  change (join (u "; ") (seg :: seg' :: segments))
    with (seg ++ u "; " ++ join (u "; ") (seg' :: segments)).
  rewrite !replaceSlashes_app, IH, replaceSlashes_id by done. done.
Qed.

(** X14.  The text shown for a definition never holds a slash, and it is
    two code units longer than the definition for every slash of the
    definition. *)
Theorem shown_definition_has_no_slash (definition : jsstring) :
  (chSlash ∉ replaceSlashes definition)
  ∧ length (replaceSlashes definition)
    = length definition + length (filter (λ c, c = chSlash) definition).
Proof.
  unfold jsstring in *.
  induction definition as [|c s [IH1 IH2]]; [split; [by intros ?%elem_of_nil|done]|].
  change (replaceSlashes (c :: s)) with
    ((if bool_decide (c = chSlash) then u "; " else [c]) ++ replaceSlashes s).
  case_bool_decide as Hc.
  - split.
    + intros Hin. apply elem_of_app in Hin as [Hin|Hin]; [|done].
      apply list_elem_of_In in Hin. simpl in Hin.
      destruct Hin as [Hin|[Hin|[]]]; discriminate Hin.
    + rewrite (filter_cons_True (λ c0, c0 = chSlash) c s Hc).
      rewrite length_app, IH2. change (length (u "; ")) with 2. simpl. lia.
  - split.
    + intros Hin. apply elem_of_app in Hin as [Hin|Hin]; [|done].
      apply list_elem_of_singleton in Hin. congruence.
    + rewrite (filter_cons_False (λ c0, c0 = chSlash) c s Hc).
      rewrite length_app, IH2. simpl. lia.
Qed.

(** X15.  From the line to the screen: for a line [H [R] /g1/g2/.../]
    whose glosses hold no slash and no line terminator, the definition
    element of the word entry shows the glosses separated by a semicolon
    and a space. *)
Theorem glosses_are_shown_with_semicolons
    (H R : jsstring) (glosses : list jsstring) (reason0 : option jsstring) :
  H ≠ [] → Forall (λ c, CharClass.space c = false) H →
  Forall (λ c, CharClass.dot c = true ∧ c ≠ chRBracket) R →
  join [chSlash] glosses ≠ [] →
  Forall (λ g, (chSlash ∉ g) ∧ Forall (λ c, CharClass.dot c = true) g) glosses →
  Word.entries [(H ++ u " [" ++ R ++ u "] /" ++ join [chSlash] glosses ++ u "/",
                 reason0)]
  = [Word.newEntry H (Some R) (join [chSlash] glosses) reason0]
  ∧ textContent
      (WordView.definitionSpan
         (Word.newEntry H (Some R) (join [chSlash] glosses) reason0))
    = join (u "; ") glosses.
Proof.
  intros HH HHns HR HG Hglosses. split.
  - unfold Word.entries. cbn [foldl]. apply WordFacts.word_step_empty.
    apply (matchEntry_bracketed H (u " ") R (u " ") (join [chSlash] glosses) []);
      try done; try (by repeat constructor).
    clear HG. induction Hglosses as [|g glosses [_ Hg] _ IH]; [done|].
    destruct glosses as [|g' glosses]; [done|].
    change (join [chSlash] (g :: g' :: glosses))
      with (g ++ [chSlash] ++ join [chSlash] (g' :: glosses)).
    apply Forall_app. split; [done|]. apply Forall_app. split; [|done].
    by repeat constructor.
  - simpl. rewrite app_nil_r. apply replaceSlashes_join.
    eapply Forall_impl; [exact Hglosses|]. by intros g [? _].
Qed.

Lemma glosses_are_shown_with_semicolons_witness :
  textContent
    (WordView.definitionSpan
       (Word.newEntry Samples.assari (Some Samples.kokujira)
          (join [chSlash] [u "easily"; u "readily"; u "(P)"]) None))
  = join (u "; ") [u "easily"; u "readily"; u "(P)"].
Proof.
  refine (proj2 (glosses_are_shown_with_semicolons Samples.assari Samples.kokujira
                   [u "easily"; u "readily"; u "(P)"] None _ _ _ _ _)).
  - discriminate.
  - repeat constructor.
  - repeat constructor; discriminate.
  - discriminate.
  - repeat constructor; intros Hin; apply list_elem_of_In in Hin; simpl in Hin;
      repeat (destruct Hin as [Hin|Hin]; [discriminate Hin|]); done.
Defined.

(** ** The text of the copy legend *)

Example copy_legend_text :
  textContent (renderCopyInstructions false)
  = u "Copy: e = entry, w = word, f = fields, Esc = cancel"
  ∧ textContent (renderCopyInstructions true)
    = u "Copy: e = entry, w = kanji, f = fields, Esc = cancel".
Proof. split; vm_compute; reflexivity. Qed.

(** ** The heading of a word entry *)

Lemma textContent_element (tag : string) (classes : list string) (nodes : list Node) :
  textContent (Element tag classes nodes) = concat (textContent <$> nodes).
Proof. simpl. induction nodes as [|n nodes IH]; [done|]. simpl. by rewrite IH. Qed.

Lemma lastElementChild_snoc (nodes : list Node) (n : Node) :
  isElement n = true → lastElementChild (nodes ++ [n]) = Some n.
Proof.
  intros Hn. unfold lastElementChild.
  rewrite filter_app, filter_cons_True, filter_nil by done.
  apply last_snoc.
Qed.

(** After a reading, the next reading comes with a separator. *)
Lemma kanaStep_after_kana (nodes : list Node) (k : jsstring) (rest : list jsstring) :
  foldl WordView.kanaStep (Some (nodes ++ [WordView.kanaSpan k])) rest
  = Some (nodes ++ WordView.kanaSpan k
                   :: (rest ≫= λ k', [Text WordView.kanaSeparator; WordView.kanaSpan k'])).
Proof.
  revert nodes k. induction rest as [|k' rest IH]; intros nodes k; [done|].
  cbn [foldl]. unfold WordView.kanaStep at 2. cbn [mbind option_bind].
  rewrite lastElementChild_snoc by done. cbn [mbind option_bind].
  change (classListContains "w-kana" (WordView.kanaSpan k)) with true.
  cbv beta iota zeta.
  rewrite IH. f_equal. rewrite <- !app_assoc. done.
Qed.

Lemma heading_nodes (entry : Word.DisplayEntry) :
  WordView.heading entry
  = Some (WordView.kanjiSpan entry
          :: WordView.readingNodes (Word.kana entry)
          ++ if truthy (Word.reason entry)
             then [WordView.reasonSpan (default [] (Word.reason entry))]
             else []).
Proof.
  unfold WordView.heading.
  assert (foldl WordView.kanaStep (Some [WordView.kanjiSpan entry]) (Word.kana entry)
          = Some (WordView.kanjiSpan entry :: WordView.readingNodes (Word.kana entry)))
    as ->.
  { unfold WordView.kanjiSpan. destruct (Word.kana entry) as [|k rest]; [done|].
    cbn [foldl WordView.readingNodes].
    change (WordView.kanaStep (Some [?n]) k) with (Some ([n] ++ [WordView.kanaSpan k])).
    by rewrite kanaStep_after_kana. }
  cbn [mbind option_bind]. destruct (truthy (Word.reason entry)); [done|].
  by rewrite app_nil_r.
Qed.

Lemma join_cons (separator k : jsstring) (rest : list jsstring) :
  join separator (k :: rest) = k ++ concat ((λ k', separator ++ k') <$> rest).
Proof.
  revert k. induction rest as [|k' rest IH]; intros k; [simpl; by rewrite app_nil_r|].
  change (join separator (k :: k' :: rest))
    with (k ++ separator ++ join separator (k' :: rest)).
  rewrite IH. simpl. by rewrite <- !app_assoc.
Qed.

Lemma readingNodes_text (kana : list jsstring) :
  concat (textContent <$> WordView.readingNodes kana)
  = join WordView.kanaSeparator kana.
Proof.
  destruct kana as [|k rest]; [done|]. rewrite join_cons.
  unfold WordView.readingNodes. rewrite fmap_cons, concat_cons.
  change (textContent (WordView.kanaSpan k)) with (k ++ []). rewrite app_nil_r.
  f_equal. induction rest as [|k' rest IH]; [done|].
  rewrite bind_cons, fmap_app, concat_app, IH. simpl.
  by rewrite !app_nil_r, ?app_assoc.
Qed.

(** X16.  The heading of a word entry is always built (the unchecked
    [lastElementChild] is never null): it holds the headword element,
    then the readings with the separator between them and none before
    the first, then the reason in parentheses when there is one.  Its
    text is the headword, the readings joined by the separator, and the
    reason. *)
Theorem word_heading_is_built (entry : Word.DisplayEntry) :
  WordView.heading entry
  = Some (WordView.kanjiSpan entry
          :: WordView.readingNodes (Word.kana entry)
          ++ if truthy (Word.reason entry)
             then [WordView.reasonSpan (default [] (Word.reason entry))]
             else [])
  ∧ textContent (Element "div" [] (default [] (WordView.heading entry)))
    = Word.kanjiKana entry
      ++ join WordView.kanaSeparator (Word.kana entry)
      ++ if truthy (Word.reason entry)
         then u "(" ++ default [] (Word.reason entry) ++ u ")"
         else [].
Proof.
  split; [apply heading_nodes|].
  rewrite heading_nodes. cbn [from_option]. unfold id.
  rewrite textContent_element. rewrite fmap_cons, fmap_app, concat_cons, concat_app.
  rewrite readingNodes_text. simpl. rewrite app_nil_r.
  destruct (truthy (Word.reason entry)); simpl; by rewrite ?app_nil_r.
Qed.

(** ** The whole word list *)

Lemma entryDiv_node (options : PopupOptions) (selected : bool)
    (entry : Word.DisplayEntry) :
  WordView.entryDiv options selected entry
  = Some (WordView.entryNode options selected entry).
Proof. unfold WordView.entryDiv. by rewrite heading_nodes. Qed.

Lemma entryStep_loop (options : PopupOptions) (selectedIndex : Z)
    (entries : list Word.DisplayEntry) (index0 : nat) (nodes0 : list Node) :
  foldl (WordView.entryStep options selectedIndex) (Some (index0, nodes0)) entries
  = Some (index0 + length entries,
          nodes0 ++ imap (λ index entry,
                            WordView.entryNode options
                              (bool_decide (Z.of_nat (index0 + index) = selectedIndex))
                              entry)
                         entries).
Proof.
  revert index0 nodes0. induction entries as [|entry entries IH]; intros index0 nodes0.
  - simpl. by rewrite Nat.add_0_r, app_nil_r.
  - cbn [foldl]. unfold WordView.entryStep at 2. cbn [mbind option_bind].
    rewrite entryDiv_node. cbn [mbind option_bind].
    rewrite IH, imap_cons, Nat.add_0_r, <- app_assoc. cbn [length app].
    f_equal. f_equal; [lia|]. do 2 f_equal.
    apply imap_ext. intros index e _. simpl. by rewrite Nat.add_succ_r.
Qed.

(** X17.  [renderWordEntries] always returns its container (nothing in it
    dereferences null).  The container holds, in this order: the title
    when it is not empty, one element for each display entry, with class
    [-selected] on the entry that [getSelectedIndex] gives, the
    [more] marker when [result.more] is set, and the copy legend in copy
    mode. *)
Theorem word_list_is_built
    (data : list DataItem) (more : bool) (title : option jsstring)
    (options : PopupOptions) :
  WordView.renderWordEntries data more title options
  = Some (Element "div" ["wordlist"%string]
            ((if truthy title
              then [Element "div" ["title"%string] [Text (default [] title)]]
              else [])
             ++ imap (λ index entry,
                        WordView.entryNode options
                          (bool_decide
                             (Z.of_nat index
                              = getSelectedIndex options
                                  (Z.of_nat (length (Word.entries data)))))
                          entry)
                     (Word.entries data)
             ++ (if more
                 then [Element "div" ["more"%string] [Text (u "...")]]
                 else [])
             ++ (if default false (copyMode options)
                 then [renderCopyInstructions false]
                 else []))).
Proof.
  unfold WordView.renderWordEntries. cbv zeta.
  rewrite entryStep_loop. cbn [mbind option_bind Nat.add]. do 2 f_equal.
  destruct more, (default false (copyMode options));
    by rewrite <- ?app_assoc, ?app_nil_r.
Qed.

(** ** The readings of a kanji *)

Lemma indexOfDot_first (before after : jsstring) :
  KanjiView.chDot ∉ before →
  KanjiView.indexOfDot (before ++ KanjiView.chDot :: after) = Some (length before).
Proof.
  induction before as [|c before IH]; intros Hb; cbn [app KanjiView.indexOfDot].
  - by rewrite bool_decide_eq_true_2.
  - apply not_elem_of_cons in Hb as [Hc Hb].
    rewrite bool_decide_eq_false_2 by congruence. by rewrite IH.
Qed.

Lemma indexOfDot_none (reading : jsstring) :
  KanjiView.chDot ∉ reading → KanjiView.indexOfDot reading = None.
Proof.
  induction reading as [|c reading IH]; intros Hr; [done|].
  cbn [KanjiView.indexOfDot].
  apply not_elem_of_cons in Hr as [Hc Hr].
  rewrite bool_decide_eq_false_2 by congruence. by rewrite IH.
Qed.

(** X18.  A reading of a kanji is cut at its first full stop: what is
    before it is shown as text, what is after it (further full stops
    included) is shown highlighted, and the full stop itself is not
    shown.  A reading without a full stop is shown as it is. *)
Theorem reading_is_cut_at_first_stop (before after reading : jsstring) :
  KanjiView.chDot ∉ before → KanjiView.chDot ∉ reading →
  KanjiView.readingNodes 0 (before ++ KanjiView.chDot :: after)
  = [Text before; Element "span" ["k-yomi-hi"%string] [Text after]]
  ∧ KanjiView.readingNodes 0 reading = [Text reading].
Proof.
  intros Hb Hr. unfold KanjiView.readingNodes. split.
  - rewrite (indexOfDot_first before after Hb). simpl.
    rewrite take_app_length, <- drop_drop, drop_app_length. done.
  - by rewrite (indexOfDot_none reading Hr).
Qed.

Lemma reading_is_cut_at_first_stop_witness :
  KanjiView.readingNodes 0 (u "kumi" ++ KanjiView.chDot :: u "su.ru")
  = [Text (u "kumi"); Element "span" ["k-yomi-hi"%string] [Text (u "su.ru")]]
  ∧ KanjiView.readingNodes 0 (u "yo") = [Text (u "yo")].
Proof.
  refine (reading_is_cut_at_first_stop (u "kumi") (u "su.ru") (u "yo") _ _);
    intros Hin; apply list_elem_of_In in Hin; simpl in Hin;
    repeat (destruct Hin as [Hin|Hin]; [discriminate Hin|]); done.
Defined.

Lemma later_readings_nodes (k : nat) (rest : list jsstring) :
  concat (imap (λ index, KanjiView.readingNodes (S (k + index))) rest)
  = rest ≫= λ reading, Text [0x3001%N] :: KanjiView.readingNodes 0 reading.
Proof.
  revert k. induction rest as [|reading rest IH]; intros k; [done|].
  rewrite imap_cons, concat_cons, bind_cons.
  rewrite <- (IH (S k)).
  assert (KanjiView.readingNodes (S (k + 0)) reading
          = Text [0x3001%N] :: KanjiView.readingNodes 0 reading) as -> by done.
  f_equal.
Qed.

(** X19.  The readings of a kanji are shown in their order, with the
    separator U+3001 between two readings and none before the first or
    after the last. *)
Theorem readings_are_separated (onkun : list jsstring) :
  KanjiView.onkunNodes onkun
  = match onkun with
    | [] => []
    | first :: rest =>
        KanjiView.readingNodes 0 first
        ++ (rest ≫= λ reading, Text [0x3001%N] :: KanjiView.readingNodes 0 reading)
    end.
Proof.
  destruct onkun as [|first rest]; [done|].
  unfold KanjiView.onkunNodes. rewrite imap_cons, concat_cons. f_equal.
  apply (later_readings_nodes 0).
Qed.

(** ** Where the word entries come from *)

(** The loop body keeps the headword, the definition and the reason of
    every entry it already has. *)
Lemma word_step_keeps_entries (es : list Word.DisplayEntry) (item : DataItem)
    (e : Word.DisplayEntry) :
  e ∈ es →
  ∃ e', e' ∈ Word.step es item
        ∧ Word.kanjiKana e' = Word.kanjiKana e
        ∧ Word.definition e' = Word.definition e
        ∧ Word.reason e' = Word.reason e.
Proof.
  intros He. destruct item as [dictEntry reason0].
  pose proof (word_step_cases es dictEntry reason0) as Hcases.
  destruct (matchEntry dictEntry) as [[[k ka] d]|];
    [|rewrite Hcases; by exists e].
  destruct Hcases as [(es0 & prev & -> & Hk & Hd & ->)|[_ ->]].
  - apply elem_of_app in He as [He|He%list_elem_of_singleton].
    + exists e. split; [apply elem_of_app; by left|done].
    + subst e. eexists. split; [apply elem_of_app; right; by apply list_elem_of_singleton|].
      by destruct (truthy ka).
  - exists e. split; [apply elem_of_app; by left|done].
Qed.

Lemma word_step_from_line (es : list Word.DisplayEntry) (dictEntry : jsstring)
    (reason0 : option jsstring) (e : Word.DisplayEntry) :
  e ∈ Word.step es (dictEntry, reason0) →
  (∃ e0, e0 ∈ es
         ∧ Word.kanjiKana e = Word.kanjiKana e0
         ∧ Word.definition e = Word.definition e0
         ∧ Word.reason e = Word.reason e0)
  ∨ (∃ ka, matchEntry dictEntry = Some (Word.kanjiKana e, ka, Word.definition e)
           ∧ Word.reason e = reason0).
Proof.
  pose proof (word_step_cases es dictEntry reason0) as Hcases.
  destruct (matchEntry dictEntry) as [[[k ka] d]|];
    [|rewrite Hcases; intros He; left; by exists e].
  destruct Hcases as [(es0 & prev & -> & Hk & Hd & ->)|[_ ->]].
  - intros [He|He%list_elem_of_singleton]%elem_of_app; left.
    + exists e. split; [apply elem_of_app; by left|done].
    + exists prev. split; [apply elem_of_app; right; by apply list_elem_of_singleton|].
      subst e. by destruct (truthy ka).
  - intros [He|He%list_elem_of_singleton]%elem_of_app.
    + left. by exists e.
    + right. subst e. by exists ka.
Qed.

(** X20.  The word loop invents no entry and drops no line that
    matches: every display entry has the headword, the definition and
    the reason of some line of the input that matched, and every line
    of the input that matched has its headword and definition in some
    display entry. *)
Theorem word_entries_cover_the_lines (data : list DataItem) :
  (∀ e, e ∈ Word.entries data →
        ∃ dictEntry reason0 ka,
          (dictEntry, reason0) ∈ data
          ∧ matchEntry dictEntry = Some (Word.kanjiKana e, ka, Word.definition e)
          ∧ Word.reason e = reason0)
  ∧ (∀ dictEntry reason0 k ka d,
       (dictEntry, reason0) ∈ data → matchEntry dictEntry = Some (k, ka, d) →
       ∃ e, e ∈ Word.entries data ∧ Word.kanjiKana e = k ∧ Word.definition e = d).
Proof.
  induction data as [|[dictEntry reason0] data [IH1 IH2]] using rev_ind.
  - split; [by intros e ?%elem_of_nil|]. by intros ? ? ? ? ? ?%elem_of_nil.
  - rewrite WordFacts.word_entries_snoc. split.
    + intros e He. apply word_step_from_line in He
        as [(e0 & He0 & Hk & Hd & Hr)|(ka & Hm & Hr)].
      * destruct (IH1 e0 He0) as (l & r & ka & Hin & Hm & Hr').
        exists l, r, ka. rewrite Hk, Hd, Hr. split; [|done].
        apply elem_of_app. by left.
      * exists dictEntry, reason0, ka. split; [|done].
        apply elem_of_app. right. by apply list_elem_of_singleton.
    + intros l r k ka d [Hin|Hin%list_elem_of_singleton]%elem_of_app Hm.
      * destruct (IH2 l r k ka d Hin Hm) as (e & He & Hk & Hd).
        destruct (word_step_keeps_entries _ (dictEntry, reason0) e He)
          as (e' & He' & Hk' & Hd' & _).
        exists e'. split; [done|]. by rewrite Hk', Hd'.
      * injection Hin as -> ->.
        pose proof (word_step_cases (Word.entries data) dictEntry reason0) as Hcases.
        rewrite Hm in Hcases.
        destruct Hcases as [(es0 & prev & _ & Hk & Hd & ->)|[_ ->]]; eexists;
          (split; [apply elem_of_app; right; by apply list_elem_of_singleton|]).
        -- by destruct (truthy ka).
        -- done.
Qed.

Lemma word_entries_cover_the_lines_witness :
  ∃ e, e ∈ Word.entries [(Samples.whaleCalf1, None); (Samples.easily, None)]
       ∧ Word.kanjiKana e = Samples.assari
       ∧ Word.definition e = u "(adv,adv-to,vs,on-mim) easily/readily/quickly/(P)".
Proof.
  refine (proj2 (word_entries_cover_the_lines
                   [(Samples.whaleCalf1, None); (Samples.easily, None)])
            Samples.easily None _ None _ _ _).
  - apply list_elem_of_In. simpl. auto.
  - vm_compute. reflexivity.
Defined.

(** X21.  The selected index never points past the last entry: for
    [n >= 0] entries it is below [n], and it is above [-n] or equal to
    -1. *)
Theorem selected_index_is_in_range (options : PopupOptions) (n : Z) :
  (0 ≤ n)%Z →
  (getSelectedIndex options n < n)%Z
  ∧ (- n < getSelectedIndex options n ∨ getSelectedIndex options n = -1)%Z.
Proof.
  intros Hn. unfold getSelectedIndex.
  destruct (_ && _ && negb (n =? 0)%Z) eqn:Hguard; [|lia].
  apply andb_true_iff in Hguard as [_ Hn0].
  apply negb_true_iff, Z.eqb_neq in Hn0.
  pose proof (Z.rem_bound_abs (default 0%Z (copyIndex options)) n Hn0). lia.
Qed.

Lemma selected_index_is_in_range_witness :
  (0 ≤ 3)%Z ∧ (getSelectedIndex (Samples.copyAt 7) 3 < 3)%Z.
Proof.
  split; [lia|].
  refine (proj1 (selected_index_is_in_range (Samples.copyAt 7) 3 _)). lia.
Defined.
